(** * flappybird.py: the simulation core of the Flappy Bird clone

    A shallow embedding of [src/flappybird.py].  Python's [float] is IEEE-754
    binary64, which is what Rocq's primitive [float] is, so [Bird.y],
    [Bird.msec_to_climb] and [PipePair.x] are primitive floats and the sink
    branch, the scrolling and every comparison evaluate bit for bit as they do
    in the interpreter.  Python's unbounded [int] is [Z].  Where a statement
    is about how far two results are apart, the binary64 values are read as
    real numbers ([F2R]) and the rounding of each operation is bounded from
    its [SpecFloat] definition.

    Two things the program uses live outside its source and are taken as
    parameters: [math.cos] (the C library's cosine) and
    [pygame.sprite.collide_mask] (pixel overlap of two masks made from the
    image assets).  Rendering calls ([blit], [flip], the score font) change no
    simulation state and are left out, except that [PipePair.__init__] keeps
    the list of pieces it draws. *)

From Stdlib Require Import ZArith List Bool Lia Floats Sorted Reals Lra.
Import ListNotations.

Set Warnings "-inexact-float".

(** ** Module-level constants *)

Definition FPS : Z := 60.
Definition ANIMATION_SPEED : float := 0.18%float.
Definition WIN_WIDTH : Z := 284 * 2.
Definition WIN_HEIGHT : Z := 512.

(** An [int] operand of a float operation is converted to the float of the
    same value; every integer constant of the program is far below 2^53, so
    the conversion is exact.  [float_of_int] covers the range the program
    uses (|n| < 2^62). *)
Definition float_of_int (n : Z) : float :=
  if (n <? 0)%Z
  then PrimFloat.opp (PrimFloat.of_uint63 (Uint63.of_Z (- n)))
  else PrimFloat.of_uint63 (Uint63.of_Z n).

(** [frames_to_msec(frames, fps=FPS)]: [1000.0 * frames / fps]. *)
Definition frames_to_msec (frames : float) : float :=
  (1000.0 * frames / float_of_int FPS)%float.

(** [msec_to_frames(milliseconds, fps=FPS)]: [fps * milliseconds / 1000.0].
    The product is an [int] product; the quotient is a float. *)
Definition msec_to_frames (milliseconds : Z) : float :=
  (float_of_int (FPS * milliseconds) / 1000.0)%float.

(** ** class Bird *)

Module Bird.
Local Open Scope float_scope.

Definition WIDTH : Z := 32.
Definition HEIGHT : Z := 32.
Definition SINK_SPEED : float := 0.18.
Definition CLIMB_SPEED : float := 0.3.
Definition CLIMB_DURATION : float := 333.3.

(** [math.pi] *)
Definition pi : float := 3.141592653589793.

Record t := mk { x : float; y : float; msec_to_climb : float }.

Section Update.
(** [math.cos] *)
Variable cos : float -> float.

(** [Bird.update(self, delta_frames=1)] *)
Definition update (self : t) (delta_frames : float) : t :=
  if 0 <? msec_to_climb self then
    let frac_climb_done := 1 - msec_to_climb self / CLIMB_DURATION in
    let y' := y self - (CLIMB_SPEED * frames_to_msec delta_frames *
                        (1 - cos (frac_climb_done * pi))) in
    mk (x self) y' (msec_to_climb self - frames_to_msec delta_frames)
  else
    mk (x self) (y self + SINK_SPEED * frames_to_msec delta_frames)
       (msec_to_climb self).
End Update.

(** The [mask] (and [image]) property: the wing-up variant is selected
    when [pygame.time.get_ticks() % 500 >= 250]. *)
Definition wingup (ticks : Z) : bool := (250 <=? ticks mod 500)%Z.
End Bird.

(** ** class PipePair *)

Module PipePair.
Local Open Scope Z_scope.

Definition WIDTH : Z := 80.
Definition PIECE_HEIGHT : Z := 32.
Definition ADD_INTERVAL : Z := 3000.

(** The two images a pair is drawn from. *)
Inductive piece := pipe_body_img | pipe_end_img.

(** [image] is kept as the list of blits, each a piece and the y of its
    top edge (the x of every blit is 0). *)
Record t := mk {
  x : float;
  score_counted : bool;
  image : list (piece * Z);
  top_pieces : Z;
  bottom_pieces : Z
}.

(** [int((WIN_HEIGHT - 3*Bird.HEIGHT - 3*PIECE_HEIGHT) / PIECE_HEIGHT)]:
    a true division followed by [int], which truncates toward zero. *)
Definition total_pipe_body_pieces : Z :=
  Z.quot (WIN_HEIGHT - 3 * Bird.HEIGHT - 3 * PIECE_HEIGHT) PIECE_HEIGHT.

Definition top_height_px (self : t) : Z := top_pieces self * PIECE_HEIGHT.
Definition bottom_height_px (self : t) : Z := bottom_pieces self * PIECE_HEIGHT.

(** [range(lo, hi)] *)
Definition range (lo hi : Z) : list Z :=
  map (fun i => lo + Z.of_nat i) (seq 0 (Z.to_nat (hi - lo))).

(** [PipePair.__init__]; [draw] is the value [randint(1,
    total_pipe_body_pieces)] returned.  The end pieces are placed from the
    heights as they are before the two counts are incremented. *)
Definition init (draw : Z) : t :=
  let bottom := draw in
  let top := total_pipe_body_pieces - bottom in
  let bottom_body :=
    map (fun i => (pipe_body_img, WIN_HEIGHT - i * PIECE_HEIGHT))
        (range 1 (bottom + 1)) in
  let bottom_pipe_end_y := WIN_HEIGHT - bottom * PIECE_HEIGHT in
  let bottom_end := (pipe_end_img, bottom_pipe_end_y - PIECE_HEIGHT) in
  let top_body :=
    map (fun i => (pipe_body_img, i * PIECE_HEIGHT)) (range 0 top) in
  let top_pipe_end_y := top * PIECE_HEIGHT in
  let top_end := (pipe_end_img, top_pipe_end_y) in
  mk (float_of_int (WIN_WIDTH - 1)) false
     (bottom_body ++ [bottom_end] ++ top_body ++ [top_end])
     (top + 1) (bottom + 1).

(** [-PipePair.WIDTH < self.x < WIN_WIDTH] *)
Definition visible (self : t) : bool :=
  (float_of_int (- WIDTH) <? x self)%float &&
  (x self <? float_of_int WIN_WIDTH)%float.

(** [PipePair.update(self, delta_frames=1)] *)
Definition update (self : t) (delta_frames : float) : t :=
  mk (x self - ANIMATION_SPEED * frames_to_msec delta_frames)%float
     (score_counted self) (image self) (top_pieces self) (bottom_pieces self).
End PipePair.

(** ** main: the game loop *)

(** The keys and event types [main] tells apart; every other key or event
    type falls through the [if]/[elif] chain untouched. *)
Inductive key := K_ESCAPE | K_PAUSE | K_p | K_UP | K_RETURN | K_SPACE | K_other.
Inductive event := QUIT | KEYUP (k : key) | MOUSEBUTTONUP | other_event.

(** What one iteration reads from outside: the events of
    [pygame.event.get()], the value [randint] returns if a pair is created,
    and [pygame.time.get_ticks()] as read by [Bird.mask]. *)
Record frame_input := mk_input {
  events : list event;
  randint : Z;
  get_ticks : Z
}.

(** The local variables of [main] that outlive an iteration. *)
Record game := mk_game {
  bird : Bird.t;
  pipes : list PipePair.t;
  frame_clock : Z;
  score : Z;
  done : bool;
  paused : bool
}.

(** [e.type == QUIT or (e.type == KEYUP and e.key == K_ESCAPE)] *)
Definition is_quit (e : event) : bool :=
  match e with QUIT | KEYUP K_ESCAPE => true | _ => false end.

(** [e.type == KEYUP and e.key in (K_PAUSE, K_p)] *)
Definition is_pause (e : event) : bool :=
  match e with KEYUP K_PAUSE | KEYUP K_p => true | _ => false end.

(** [e.type == MOUSEBUTTONUP or (e.type == KEYUP and
    e.key in (K_UP, K_RETURN, K_SPACE))] *)
Definition is_climb (e : event) : bool :=
  match e with
  | MOUSEBUTTONUP | KEYUP K_UP | KEYUP K_RETURN | KEYUP K_SPACE => true
  | _ => false
  end.

Definition set_done (g : game) : game :=
  mk_game (bird g) (pipes g) (frame_clock g) (score g) true (paused g).

Definition toggle_paused (g : game) : game :=
  mk_game (bird g) (pipes g) (frame_clock g) (score g) (done g)
          (negb (paused g)).

(** [bird.msec_to_climb = Bird.CLIMB_DURATION] *)
Definition start_climb (g : game) : game :=
  mk_game (Bird.mk (Bird.x (bird g)) (Bird.y (bird g)) Bird.CLIMB_DURATION)
          (pipes g) (frame_clock g) (score g) (done g) (paused g).

(** The [for e in pygame.event.get()] loop; the quit branch ends in
    [break], so the events after it are not looked at. *)
Fixpoint handle_events (evs : list event) (g : game) : game :=
  match evs with
  | [] => g
  | e :: evs' =>
      if is_quit e then set_done g
      else if is_pause e then handle_events evs' (toggle_paused g)
      else if is_climb e then handle_events evs' (start_climb g)
      else handle_events evs' g
  end.

(** The truth value of [frame_clock % msec_to_frames(PipePair.ADD_INTERVAL)].
    The right operand is the float 180.0 ([msec_to_frames_interval] below);
    the float remainder of a frame count by it is zero exactly when the
    integer remainder is (frame counts stay far below 2^53). *)
Definition off_interval (frame_clock : Z) : bool :=
  negb (frame_clock mod (FPS * PipePair.ADD_INTERVAL / 1000) =? 0)%Z.

(** [if not (paused or frame_clock % ...): pipes.append(PipePair(...))] *)
Definition spawn (inp : frame_input) (g : game) : game :=
  if negb (paused g || off_interval (frame_clock g))
  then mk_game (bird g) (pipes g ++ [PipePair.init (randint inp)])
               (frame_clock g) (score g) (done g) (paused g)
  else g.

(** [while pipes and not pipes[0].visible: pipes.popleft()] *)
Fixpoint prune (ps : list PipePair.t) : list PipePair.t :=
  match ps with
  | [] => []
  | p :: ps' => if negb (PipePair.visible p) then prune ps' else ps
  end.

(** [p.x + PipePair.WIDTH < bird.x and not p.score_counted] *)
Definition passed_uncounted (bird_x : float) (p : PipePair.t) : bool :=
  (PipePair.x p + float_of_int PipePair.WIDTH <? bird_x)%float &&
  negb (PipePair.score_counted p).

Definition count (p : PipePair.t) : PipePair.t :=
  PipePair.mk (PipePair.x p) true (PipePair.image p)
              (PipePair.top_pieces p) (PipePair.bottom_pieces p).

(** The scoring loop, [for p in pipes: if ...: score += 1;
    p.score_counted = True], as a pass over the stream and the score. *)
Fixpoint update_score (bird_x : float) (ps : list PipePair.t) (score : Z)
  : list PipePair.t * Z :=
  match ps with
  | [] => ([], score)
  | p :: ps' =>
      if passed_uncounted bird_x p
      then let (r, s) := update_score bird_x ps' (score + 1)%Z in (count p :: r, s)
      else let (r, s) := update_score bird_x ps' score in (p :: r, s)
  end.

(** [0 >= bird.y or bird.y >= WIN_HEIGHT - Bird.HEIGHT] *)
Definition out_of_bounds (b : Bird.t) : bool :=
  (Bird.y b <=? float_of_int 0)%float ||
  (float_of_int (WIN_HEIGHT - Bird.HEIGHT) <=? Bird.y b)%float.

Section Main.
(** [math.cos] *)
Variable cos : float -> float.
(** [pygame.sprite.collide_mask(pipe, bird)] as a truth value; the first
    argument says which of the bird's two masks is current. *)
Variable collide_mask : bool -> PipePair.t -> Bird.t -> bool.

(** [PipePair.collides_with(self, bird)] *)
Definition collides_with (ticks : Z) (p : PipePair.t) (b : Bird.t) : bool :=
  collide_mask (Bird.wingup ticks) p b.

(** [pipe_collision or 0 >= bird.y or bird.y >= WIN_HEIGHT - Bird.HEIGHT] *)
Definition collision (ticks : Z) (ps : list PipePair.t) (b : Bird.t) : bool :=
  existsb (fun p => collides_with ticks p b) ps || out_of_bounds b.

(** The collision check of an iteration: [done = True] on a hit. *)
Definition check_collisions (ticks : Z) (g : game) : game :=
  if collision ticks (pipes g) (bird g) then set_done g else g.

(** The rest of the iteration after the collision check: prune, move every
    pair, move the bird, score, [frame_clock += 1]. *)
Definition advance (g : game) : game :=
  let ps := map (fun p => PipePair.update p 1) (prune (pipes g)) in
  let b := Bird.update cos (bird g) 1 in
  let (ps', sc) := update_score (Bird.x b) ps (score g) in
  mk_game b ps' (frame_clock g + 1) sc (done g) (paused g).

(** One iteration of [while not done]. *)
Definition main_tick (inp : frame_input) (g : game) : game :=
  let g' := handle_events (events inp) (spawn inp g) in
  if paused g' then g'                                   (* continue *)
  else advance (check_collisions (get_ticks inp) g').

(** [while not done: ...] over the inputs of successive iterations. *)
Fixpoint main_loop (inputs : list frame_input) (g : game) : game :=
  match inputs with
  | [] => g
  | inp :: inputs' =>
      if done g then g else main_loop inputs' (main_tick inp g)
  end.

(** The state [main] enters its loop with:
    [Bird(50, int(WIN_HEIGHT/2 - Bird.HEIGHT/2), 2, ...)], [deque()],
    [frame_clock = 0], [score = 0], [done = paused = False]. *)
Definition start : game :=
  mk_game (Bird.mk (float_of_int 50)
                   (float_of_int (WIN_HEIGHT / 2 - Bird.HEIGHT / 2))
                   (float_of_int 2))
          [] 0 0 false false.

(** [main]: the score printed after the loop. *)
Definition main (inputs : list frame_input) : Z :=
  score (main_loop inputs start).
End Main.

(** ** Vocabulary of the statements *)

(** A blit of a body piece. *)
Definition is_body (b : PipePair.piece * Z) : bool :=
  match fst b with
  | PipePair.pipe_body_img => true
  | PipePair.pipe_end_img => false
  end.

(** What one scoring pass does to a pair, and what it adds to the score. *)
Definition scored_step (bird_x : float) (p : PipePair.t) : PipePair.t :=
  if passed_uncounted bird_x p then count p else p.

Definition newly_passed (bird_x : float) (ps : list PipePair.t) : Z :=
  Z.of_nat (length (filter (passed_uncounted bird_x) ps)).

(** [n] scoring passes in a row over a stream that does not move. *)
Definition score_passes (bird_x : float) (n : nat) (st : list PipePair.t * Z)
  : list PipePair.t * Z :=
  Nat.iter n (fun st => update_score bird_x (fst st) (snd st)) st.

Definition same_position (b b' : Bird.t) : Prop :=
  Bird.x b' = Bird.x b /\ Bird.y b' = Bird.y b.

Definition no_pause_event (inp : frame_input) : Prop :=
  forallb (fun e => negb (is_pause e)) (events inp) = true.

Definition no_climb_event (inp : frame_input) : Prop :=
  forallb (fun e => negb (is_climb e)) (events inp) = true.

(** The simulation state: the bird's [y] and climb timer, every pair's [x],
    the score and the frame counter. *)
Definition same_simulation (g g' : game) : Prop :=
  Bird.y (bird g') = Bird.y (bird g)
  /\ Bird.msec_to_climb (bird g') = Bird.msec_to_climb (bird g)
  /\ map PipePair.x (pipes g') = map PipePair.x (pipes g)
  /\ score g' = score g
  /\ frame_clock g' = frame_clock g.

(** A pair of the old stream and what has become of it: the same pair (same
    picture, same piece counts), its flag still set if it was. *)
Definition flag_kept (p p' : PipePair.t) : Prop :=
  PipePair.image p' = PipePair.image p
  /\ PipePair.top_pieces p' = PipePair.top_pieces p
  /\ PipePair.bottom_pieces p' = PipePair.bottom_pieces p
  /\ (PipePair.score_counted p = true -> PipePair.score_counted p' = true).

(** The state of an iteration once [done] has its value for the iteration:
    after the event loop and, unless paused, the collision check. *)
Definition at_check (collide_mask : bool -> PipePair.t -> Bird.t -> bool)
    (inp : frame_input) (g : game) : game :=
  let g' := handle_events (events inp) (spawn inp g) in
  if paused g' then g' else check_collisions collide_mask (get_ticks inp) g'.

(** How many pairs the pruning loop pops off a stream. *)
Definition popped (ps : list PipePair.t) : nat :=
  (length ps - length (prune ps))%nat.

(** How many pairs an iteration pops: none when it ends at [continue]. *)
Definition popped_in_tick (inp : frame_input) (g : game) : nat :=
  let g' := handle_events (events inp) (spawn inp g) in
  if paused g' then 0%nat else popped (pipes g').

(** How many pairs the loop pops over a run. *)
Fixpoint popped_in_run (cos : float -> float)
    (collide_mask : bool -> PipePair.t -> Bird.t -> bool)
    (inputs : list frame_input) (g : game) : nat :=
  match inputs with
  | [] => 0%nat
  | inp :: inputs' =>
      if done g then 0%nat
      else (popped_in_tick inp g
            + popped_in_run cos collide_mask inputs'
                (main_tick cos collide_mask inp g))%nat
  end.

(** [ps'] is [ps] with its first [k] pairs gone, the others in place and
    in order, each still the pair it was and with its flag kept, followed by
    the pairs appended since. *)
Definition stream_after (k : nat) (ps ps' : list PipePair.t) : Prop :=
  exists kept fresh : list PipePair.t,
    Forall2 flag_kept (skipn k ps) kept /\ ps' = kept ++ fresh.




(** ** Values for concrete runs

    To run the loop the two parameters need values.  [cos_series] is the
    Taylor series of the cosine, summed to fifteen terms; [no_overlap] is the
    answer of [collide_mask] for a pair and a bird whose pictures share no
    pixel, as when they are far apart. *)

Fixpoint cos_sum (n : nat) (k term acc v2 : float) : float :=
  match n with
  | O => acc
  | S n' =>
      let term' := (- term * v2 / ((k + 1) * (k + 2)))%float in
      cos_sum n' (k + 2)%float term' (acc + term')%float v2
  end.

Definition cos_series (v : float) : float := cos_sum 14 0 1 1 (v * v)%float.

Definition no_overlap : bool -> PipePair.t -> Bird.t -> bool :=
  fun _ _ _ => false.

(** The pair [PipePair.init draw] once it has scrolled to [x]. *)
Definition pair_at (x : float) (draw : Z) : PipePair.t :=
  let p := PipePair.init draw in
  PipePair.mk x false (PipePair.image p)
              (PipePair.top_pieces p) (PipePair.bottom_pieces p).

Definition idle_input : frame_input := mk_input [] 3 0.
Definition quit_input : frame_input := mk_input [QUIT] 3 0.
Definition climb_input : frame_input := mk_input [MOUSEBUTTONUP] 3 0.

(** Frame 85 of a game: the first pair is at 567 - 85 * 3, the bird is
    sinking two pixels above the lower bound 480. *)
Definition sinking_low : game :=
  mk_game (Bird.mk 50 478 (-16.7)) [pair_at 312 3] 85 0 false false.

(** Frame 199 of a game: the first pair is about to clear the bird, the
    second was created at frame 180. *)
Definition about_to_score : game :=
  mk_game (Bird.mk 50 200 (-16.7)) [pair_at (-30) 3; pair_at 510 6]
          199 0 false false.

(** Frame 49 of a game, paused, the bird sinking. *)
Definition paused_game : game :=
  mk_game (Bird.mk 50 300 (-16.7)) [pair_at 420 3] 49 0 false true.

(** ** Vocabulary of the further properties *)

(** Whether a piece of a pair's picture has its top edge at [py], and
    whether [py] lies in the gap between the two pipes. *)
Definition drawn_at (p : PipePair.t) (py : Z) : bool :=
  existsb (fun b => (snd b =? py)%Z) (PipePair.image p).

Definition in_gap (p : PipePair.t) (py : Z) : bool :=
  (PipePair.top_height_px p <=? py)%Z &&
  (py <? WIN_HEIGHT - PipePair.bottom_height_px p)%Z.

Fixpoint distinct (l : list Z) : bool :=
  match l with
  | [] => true
  | a :: l' => negb (existsb (Z.eqb a) l') && distinct l'
  end.

(** The three checks of the tiling of a picture, for the draw [d]: every
    piece on one of the sixteen rows, no two on the same row, a row drawn
    exactly when outside the gap. *)
Definition picture_checks (d : Z) : bool :=
  forallb (fun b => existsb (fun s => snd b =? s * PipePair.PIECE_HEIGHT)%Z
                            (PipePair.range 0 16))
          (PipePair.image (PipePair.init d))
  && distinct (map snd (PipePair.image (PipePair.init d)))
  && forallb (fun s =>
                Bool.eqb
                  (drawn_at (PipePair.init d) (s * PipePair.PIECE_HEIGHT))
                  (negb (in_gap (PipePair.init d)
                                (s * PipePair.PIECE_HEIGHT))))
             (PipePair.range 0 16).

(** The pairs of a stream whose [score_counted] is set. *)
Definition counted (ps : list PipePair.t) : Z :=
  Z.of_nat (length (filter PipePair.score_counted ps)).

(** The condition under which an iteration creates a pair. *)
Definition spawn_due (g : game) : bool :=
  negb (paused g) && (frame_clock g mod 180 =? 0)%Z.

(** The events [main] reacts to. *)
Definition recognised (e : event) : bool :=
  is_quit e || is_pause e || is_climb e.

Definition quit_free (evs : list event) : Prop :=
  forallb (fun e => negb (is_quit e)) evs = true.

(** The events the event loop gets to: those before the first quit. *)
Fixpoint before_quit (evs : list event) : list event :=
  match evs with
  | [] => []
  | e :: evs' => if is_quit e then [] else e :: before_quit evs'
  end.

(** Whether a climb event gets to the bird over a run of iterations that
    stay paused: one before the first quit of its iteration, in an iteration
    the loop still runs (none runs after a quit). *)
Fixpoint climb_reached (inputs : list frame_input) : bool :=
  match inputs with
  | [] => false
  | inp :: inputs' =>
      existsb is_climb (before_quit (events inp))
      || (negb (existsb is_quit (events inp)) && climb_reached inputs')
  end.

Definition toggles (evs : list event) : nat :=
  length (filter is_pause evs).

Definition quit_arrives (inputs : list frame_input) : bool :=
  existsb (fun inp => existsb is_quit (events inp)) inputs.

(** The counted pairs among those an iteration pops. *)
Definition popped_counted (inp : frame_input) (g : game) : Z :=
  counted (firstn (popped_in_tick inp g) (pipes (spawn inp g))).

(** The pairs of a stream still to be counted, and the pairs a run of the
    loop creates. *)
Definition uncounted (ps : list PipePair.t) : Z :=
  (Z.of_nat (length ps) - counted ps)%Z.

Fixpoint created_in_run (cos : float -> float)
    (collide_mask : bool -> PipePair.t -> Bird.t -> bool)
    (inputs : list frame_input) (g : game) : Z :=
  match inputs with
  | [] => 0%Z
  | inp :: inputs' =>
      if done g then 0%Z
      else ((if spawn_due g then 1 else 0)
            + created_in_run cos collide_mask inputs'
                (main_tick cos collide_mask inp g))%Z
  end.

(** ** Binary64 numbers as real numbers

    The value of a binary64 number as a real, and the vocabulary of the
    rounding analysis.  The primitive operations are specified by
    [SpecFloat] ([add_spec], [mul_spec], [div_spec], ...): an exact
    operation on mantissa and exponent followed by rounding to nearest,
    ties to even. *)

Section Exact.
Local Open Scope R_scope.

(** [2 ^ e] *)
Definition bpow (e : Z) : R := powerRZ 2 e.

Definition sgn (s : bool) : R := if s then -1 else 1.

(** The value of a finite number.  Infinities and NaN have none and are
    sent to 0; [SFfin] tells them apart. *)
Definition SF2R (x : spec_float) : R :=
  match x with
  | S754_finite s m e => sgn s * (IZR (Z.pos m) * bpow e)
  | _ => 0
  end.

Definition SFfin (x : spec_float) : bool :=
  match x with
  | S754_finite _ _ _ | S754_zero _ => true
  | _ => false
  end.

Definition F2R (f : float) : R := SF2R (Prim2SF f).
Definition Ffin (f : float) : bool := SFfin (Prim2SF f).

(** Where the exact [x] lies with regard to a truncated mantissa and its
    round and sticky bits. *)
Definition inbetween (mrs : shr_record) (x : R) : Prop :=
  let m := IZR (shr_m mrs) in
  match shr_r mrs, shr_s mrs with
  | false, false => x = m
  | false, true => m < x < m + / 2
  | true, false => x = m + / 2
  | true, true => m + / 2 < x < m + 1
  end.

(** The exponent of the last place of a binary64 number with [e] digits
    before the binary point. *)
Definition fexp53 (e : Z) : Z := Z.max (e - 53) (-1074).

(** Unit roundoff, and half the smallest subnormal. *)
Definition u53 : R := bpow (-53).
Definition eta : R := bpow (-1075).

Definition compare_agrees (c : option comparison) (a b : R) : Prop :=
  match c with
  | Some Lt => a < b
  | Some Eq => a = b
  | Some Gt => b < a
  | None => False
  end.

(** [abs(a - b) <= tol], evaluated in binary64. *)
Definition within (tol a b : float) : bool := (abs (a - b) <=? tol)%float.
End Exact.

(** * Properties *)

Example frames_to_msec_1 : frames_to_msec 1 = 16.666666666666668%float.
Proof. vm_compute. reflexivity. Qed.

Example msec_to_frames_interval :
  msec_to_frames PipePair.ADD_INTERVAL = 180%float.
Proof. vm_compute. reflexivity. Qed.

(** ** Order facts on binary64

    The comparisons of the program are the primitive ones; their
    specification ([ltb_spec], [leb_spec]) reduces them to [SFcompare], a
    lexicographic comparison on sign, exponent and mantissa. *)

Ltac compare_cases :=
  repeat match goal with
  | |- context [Z.compare ?a ?b] => destruct (Z.compare_spec a b)
  | |- context [Pos.compare_cont Eq ?a ?b] =>
      change (Pos.compare_cont Eq a b) with (Pos.compare a b);
      destruct (Pos.compare_spec a b)
  end.

Ltac by_float_cases :=
  unfold SFltb, SFleb, SFcompare;
  repeat match goal with
  | |- forall f : spec_float, _ => intros [[]|[]| |[] ? ?]
  end;
  try discriminate; try reflexivity;
  compare_cases; simpl; try discriminate; try reflexivity; try lia.


Lemma SFleb_not_ltb : forall a b : spec_float,
  SFleb a b = true -> SFltb b a = false.
Proof. by_float_cases. Qed.


Lemma leb_not_ltb (a b : float) :
  (a <=? b)%float = true -> (b <? a)%float = false.
Proof. rewrite ltb_spec, leb_spec. apply SFleb_not_ltb. Qed.

(** ** PipePair geometry *)

Section Geometry.
Local Open Scope Z_scope.
Import PipePair.

Lemma total_pipe_body_pieces_value : total_pipe_body_pieces = 10.
Proof. reflexivity. Qed.

Lemma range_length (lo hi : Z) : length (range lo hi) = Z.to_nat (hi - lo).
Proof. unfold range. now rewrite length_map, length_seq. Qed.

Lemma filter_body_map (f : Z -> Z) (l : list Z) :
  filter is_body (map (fun i => (pipe_body_img, f i)) l)
  = map (fun i => (pipe_body_img, f i)) l.
Proof. induction l as [|i l IH]; simpl; [reflexivity | now rewrite IH]. Qed.

(** The body pieces [__init__] blits. *)
Lemma body_pieces_drawn (draw : Z) :
  length (filter is_body (image (init draw)))
  = (Z.to_nat draw + Z.to_nat (total_pipe_body_pieces - draw))%nat.
Proof.
  unfold init; cbn [image].
  rewrite !filter_app, !filter_body_map; cbn [filter is_body fst].
  rewrite !length_app, !length_map, !range_length; simpl length.
  replace (draw + 1 - 1) with draw by lia.
  replace (total_pipe_body_pieces - draw - 0)
    with (total_pipe_body_pieces - draw) by lia.
  lia.
Qed.

(** C4.  With [draw] the value of [randint(1, total_pipe_body_pieces)]:
    [total_pipe_body_pieces] is the floor of
    [(WIN_HEIGHT - 3*Bird.HEIGHT - 3*PIECE_HEIGHT) / PIECE_HEIGHT];
    before the two increments for the end pieces [bottom_pieces] is the draw,
    in [1, total_pipe_body_pieces], and [top_pieces] is
    [total_pipe_body_pieces - bottom_pieces]; so
    [(top_pieces - 1) + (bottom_pieces - 1) = total_pipe_body_pieces], and
    that many body pieces are drawn. *)
Theorem pipe_piece_conservation (draw : Z) :
  1 <= draw <= total_pipe_body_pieces ->
  let p := init draw in
  total_pipe_body_pieces
    = (WIN_HEIGHT - 3 * Bird.HEIGHT - 3 * PIECE_HEIGHT) / PIECE_HEIGHT
  /\ bottom_pieces p - 1 = draw
  /\ 1 <= bottom_pieces p - 1 <= total_pipe_body_pieces
  /\ top_pieces p - 1 = total_pipe_body_pieces - (bottom_pieces p - 1)
  /\ (top_pieces p - 1) + (bottom_pieces p - 1) = total_pipe_body_pieces
  /\ Z.of_nat (length (filter is_body (image p))) = total_pipe_body_pieces.
Proof.
  intros Hdraw p. subst p.
  rewrite body_pieces_drawn. cbn [init bottom_pieces top_pieces].
  repeat split; try lia.
Qed.

(** C9.  Whatever the draw, the gap between the bottom edge of the top pipe
    ([top_height_px]) and the top edge of the bottom pipe
    ([WIN_HEIGHT - bottom_height_px]) is
    [WIN_HEIGHT - (total_pipe_body_pieces + 2) * PIECE_HEIGHT], which is 128;
    the draw only moves it: it starts at
    [(total_pipe_body_pieces - draw + 1) * PIECE_HEIGHT]. *)
Theorem pipe_gap_constant (draw : Z) :
  let p := init draw in
  (WIN_HEIGHT - bottom_height_px p) - top_height_px p
    = WIN_HEIGHT - (total_pipe_body_pieces + 2) * PIECE_HEIGHT
  /\ (WIN_HEIGHT - bottom_height_px p) - top_height_px p = 128
  /\ top_height_px p = (total_pipe_body_pieces - draw + 1) * PIECE_HEIGHT.
Proof.
  intros p. subst p.
  unfold top_height_px, bottom_height_px; cbn [init bottom_pieces top_pieces].
  rewrite total_pipe_body_pieces_value.
  change WIN_HEIGHT with 512. change PIECE_HEIGHT with 32. lia.
Qed.

(** No piece of a pair is drawn inside the gap. *)
Lemma pieces_clear_of_gap (draw : Z) (k : piece) (py : Z) :
  1 <= draw <= total_pipe_body_pieces ->
  In (k, py) (image (init draw)) ->
  py + PIECE_HEIGHT <= top_height_px (init draw)
  \/ WIN_HEIGHT - bottom_height_px (init draw) <= py.
Proof.
  intros Hdraw Hin.
  unfold top_height_px, bottom_height_px, init in *.
  cbv beta zeta in Hin. cbn [bottom_pieces top_pieces image] in *.
  rewrite total_pipe_body_pieces_value in *.
  change WIN_HEIGHT with 512 in *. change PIECE_HEIGHT with 32 in *.
  rewrite !in_app_iff in Hin. unfold range in Hin.
  rewrite !map_map in Hin.
  destruct Hin as [Hin | [Hin | [Hin | Hin]]].
  - apply in_map_iff in Hin as (i & Heq & Hi). apply in_seq in Hi.
    assert (py = 512 - (1 + Z.of_nat i) * 32) by congruence. right. lia.
  - destruct Hin as [Heq | []].
    assert (py = 512 - draw * 32 - 32) by congruence. right. lia.
  - apply in_map_iff in Hin as (i & Heq & Hi). apply in_seq in Hi.
    assert (py = (0 + Z.of_nat i) * 32) by congruence. left. lia.
  - destruct Hin as [Heq | []].
    assert (py = (10 - draw) * 32) by congruence. left. lia.
Qed.

End Geometry.

Lemma pipe_piece_conservation_witness :
  (1 <= 3 <= PipePair.total_pipe_body_pieces)%Z
  /\ (PipePair.top_pieces (PipePair.init 3) - 1
      + (PipePair.bottom_pieces (PipePair.init 3) - 1) = 10)%Z.
Proof.
  split; [vm_compute; split; discriminate |].
  apply (pipe_piece_conservation 3). vm_compute; split; discriminate.
Defined.

(** ** Bird physics *)

Section Physics.
Local Open Scope float_scope.
Import Bird.
Variable cos : float -> float.

(** C5.  [Bird.update] with [elapsed = frames_to_msec(delta_frames)]
    milliseconds: while [msec_to_climb > 0] the new [y] is the old one minus
    [CLIMB_SPEED * elapsed * (1 - cos((1 - msec_to_climb/CLIMB_DURATION) * pi))]
    and [msec_to_climb] drops by [elapsed]; when [msec_to_climb <= 0] the
    new [y] is the old one plus [SINK_SPEED * elapsed] and [msec_to_climb]
    stays.  The operations are those of binary64, in the order the source
    writes them. *)
Theorem bird_update_physics (b : Bird.t) (delta_frames : float) :
  let elapsed := frames_to_msec delta_frames in
  let b' := update cos b delta_frames in
  ((0 <? msec_to_climb b) = true ->
     y b' = y b - CLIMB_SPEED * elapsed *
                  (1 - cos ((1 - msec_to_climb b / CLIMB_DURATION) * pi))
     /\ msec_to_climb b' = msec_to_climb b - elapsed)
  /\ ((msec_to_climb b <=? 0) = true ->
     y b' = y b + SINK_SPEED * elapsed
     /\ msec_to_climb b' = msec_to_climb b).
Proof.
  intros elapsed b'; subst elapsed b'; unfold update. split.
  - intros Hclimb. rewrite Hclimb. cbn [y msec_to_climb]. split; reflexivity.
  - intros Hsink. rewrite (leb_not_ltb _ _ Hsink).
    cbn [y msec_to_climb]. split; reflexivity.
Qed.

(** [update] never moves the bird sideways. *)
Lemma bird_update_x (b : Bird.t) (delta_frames : float) :
  x (update cos b delta_frames) = x b.
Proof. unfold update. destruct (0 <? msec_to_climb b); reflexivity. Qed.

(** One frame of sinking is three pixels, whatever [cos] is. *)
Example sink_one_frame :
  update cos (mk 50 240 (-14.666666666666668)) 1
  = mk 50 243 (-14.666666666666668).
Proof. vm_compute. reflexivity. Qed.

End Physics.

(** ** Rounding

    Every binary64 operation of the sink branch is the exact operation
    followed by one rounding, with a relative error of at most [u53]
    unless the result is subnormal.  The lemmas follow the definitions of
    [SpecFloat]: [shr] with its round and sticky bits, [round_nearest_even],
    [binary_round_aux], and the four operations built on them. *)

Section Rounding.
Local Open Scope R_scope.

Lemma bpow_pos e : 0 < bpow e.
Proof. apply powerRZ_lt; lra. Qed.

Lemma bpow_add a b : bpow (a + b) = bpow a * bpow b.
Proof. apply powerRZ_add; lra. Qed.

Lemma bpow_0 : bpow 0 = 1.
Proof. reflexivity. Qed.

Lemma bpow_1 : bpow 1 = 2.
Proof. unfold bpow; simpl; lra. Qed.

Lemma bpow_m1 : bpow (-1) = / 2.
Proof. unfold bpow; simpl; f_equal; lra. Qed.

Lemma bpow_IZR n : (0 <= n)%Z -> bpow n = IZR (2 ^ n).
Proof.
  intros H. unfold bpow. rewrite <- (Z2Nat.id n H) at 1.
  rewrite <- pow_powerRZ. rewrite <- (Z2Nat.id n H) at 2.
  now rewrite pow_IZR.
Qed.

Lemma bpow_ge_1 n : (0 <= n)%Z -> 1 <= bpow n.
Proof.
  intros H. rewrite bpow_IZR by exact H. apply IZR_le.
  pose proof (Z.pow_pos_nonneg 2 n ltac:(lia) H). lia.
Qed.

Lemma bpow_le a b : (a <= b)%Z -> bpow a <= bpow b.
Proof.
  intros H. replace b with (a + (b - a))%Z by lia. rewrite bpow_add.
  pose proof (bpow_ge_1 (b - a) ltac:(lia)). pose proof (bpow_pos a). nra.
Qed.

Lemma bpow_lt a b : (a < b)%Z -> bpow a < bpow b.
Proof.
  intros H. replace b with (a + 1 + (b - a - 1))%Z by lia.
  rewrite !bpow_add, bpow_1.
  pose proof (bpow_ge_1 (b - a - 1) ltac:(lia)). pose proof (bpow_pos a). nra.
Qed.

Lemma bpow_succ e : bpow (e + 1) = 2 * bpow e.
Proof. rewrite bpow_add, bpow_1. lra. Qed.

Lemma bpow_pred e : bpow (e - 1) = bpow e / 2.
Proof.
  replace (e - 1)%Z with (e + (-1))%Z by lia. rewrite bpow_add, bpow_m1. lra.
Qed.

(** The number of binary digits of a mantissa. *)
Lemma digits2_size p : digits2_pos p = Pos.size p.
Proof. induction p; simpl; congruence. Qed.

Lemma digits_bounds p :
  (2 ^ (Z.pos (digits2_pos p) - 1) <= Z.pos p < 2 ^ Z.pos (digits2_pos p))%Z.
Proof.
  rewrite digits2_size.
  pose proof (Pos.size_gt p) as Hgt. pose proof (Pos.size_le p) as Hle.
  assert (E : forall q, Z.pos (2 ^ q) = (2 ^ Z.pos q)%Z).
  { intros q. now rewrite Pos2Z.inj_pow. }
  split.
  - assert (Z.pos (2 ^ Pos.size p) <= Z.pos p~0)%Z by (apply Pos2Z.pos_le_pos; exact Hle).
    rewrite E in H.
    replace (Z.pos (Pos.size p)) with (Z.pos (Pos.size p) - 1 + 1)%Z in H by lia.
    rewrite Z.pow_add_r in H by lia. lia.
  - rewrite <- E. apply Pos2Z.pos_lt_pos. exact Hgt.
Qed.

(** *** Right shifts with a round and a sticky bit *)

Lemma inbetween_bounds mrs x :
  inbetween mrs x -> IZR (shr_m mrs) <= x < IZR (shr_m mrs) + 1.
Proof.
  unfold inbetween. destruct (shr_r mrs), (shr_s mrs); intros; lra.
Qed.

Lemma IZR_xO p : IZR (Z.pos p~0) = 2 * IZR (Z.pos p).
Proof. now rewrite Pos2Z.inj_xO, mult_IZR. Qed.

Lemma IZR_xI p : IZR (Z.pos p~1) = 2 * IZR (Z.pos p) + 1.
Proof. now rewrite Pos2Z.inj_xI, plus_IZR, mult_IZR. Qed.

(** One right shift halves the value and keeps the position of [x] in
    the round and sticky bits. *)
Lemma shr_1_inbetween mrs x :
  (0 <= shr_m mrs)%Z -> inbetween mrs x ->
  inbetween (shr_1 mrs) (x / 2) /\ (0 <= shr_m (shr_1 mrs))%Z.
Proof.
  destruct mrs as [m r s]. unfold inbetween. cbn [shr_m shr_r shr_s].
  intros Hm H.
  destruct m as [|[p|p|]|p]; try lia; cbn [shr_1 shr_m shr_r shr_s];
    (split; [|lia]).
  - destruct r, s; cbn [orb]; lra.
  - rewrite IZR_xI in H. destruct r, s; cbn [orb]; lra.
  - rewrite IZR_xO in H. destruct r, s; cbn [orb]; lra.
  - destruct r, s; cbn [orb]; lra.
Qed.

Lemma iter_shr_1_inbetween p : forall mrs x,
  (0 <= shr_m mrs)%Z -> inbetween mrs x ->
  inbetween (SpecFloat.iter_pos shr_1 p mrs) (x * bpow (- Z.pos p))
  /\ (0 <= shr_m (SpecFloat.iter_pos shr_1 p mrs))%Z.
Proof.
  induction p as [p IH|p IH|]; intros mrs x Hm H; cbn [SpecFloat.iter_pos].
  - destruct (shr_1_inbetween _ _ Hm H) as [H1 Hm1].
    destruct (IH _ _ Hm1 H1) as [H2 Hm2].
    destruct (IH _ _ Hm2 H2) as [H3 Hm3].
    split; [|exact Hm3].
    replace (x * bpow (- Z.pos p~1))
      with (x / 2 * bpow (- Z.pos p) * bpow (- Z.pos p)); [exact H3|].
    replace (- Z.pos p~1)%Z with (-1 + (- Z.pos p + - Z.pos p))%Z by lia.
    rewrite !bpow_add, bpow_m1. lra.
  - destruct (IH _ _ Hm H) as [H2 Hm2].
    destruct (IH _ _ Hm2 H2) as [H3 Hm3].
    split; [|exact Hm3].
    replace (x * bpow (- Z.pos p~0))
      with (x * bpow (- Z.pos p) * bpow (- Z.pos p)); [exact H3|].
    replace (- Z.pos p~0)%Z with (- Z.pos p + - Z.pos p)%Z by lia.
    rewrite !bpow_add. lra.
  - destruct (shr_1_inbetween _ _ Hm H) as [H1 Hm1].
    split; [|exact Hm1].
    change (- Z.pos 1)%Z with (-1)%Z.
    replace (x * bpow (-1)) with (x / 2); [exact H1|]. rewrite bpow_m1. lra.
Qed.

(** [shr] by [n] places divides by [2 ^ n]. *)
Lemma shr_inbetween mrs e n x :
  (0 <= shr_m mrs)%Z -> inbetween mrs x ->
  snd (shr mrs e n) = (e + Z.max n 0)%Z
  /\ inbetween (fst (shr mrs e n)) (x * bpow (- Z.max n 0))
  /\ (0 <= shr_m (fst (shr mrs e n)))%Z.
Proof.
  intros Hm H. unfold shr. destruct n as [|p|p]; cbn [fst snd].
  - change (- Z.max 0 0)%Z with 0%Z. rewrite bpow_0, Rmult_1_r.
    split; [lia|auto].
  - destruct (iter_shr_1_inbetween p _ _ Hm H) as [H1 Hm1].
    split; [lia|]. split; [|exact Hm1].
    replace (- Z.max (Z.pos p) 0)%Z with (- Z.pos p)%Z by lia. exact H1.
  - replace (- Z.max (Z.neg p) 0)%Z with 0%Z by lia. rewrite bpow_0, Rmult_1_r.
    split; [lia|auto].
Qed.

Lemma inbetween_of_loc m : inbetween (shr_record_of_loc m loc_Exact) (IZR m).
Proof. reflexivity. Qed.

(** Rounding to nearest, ties to even, from the round and sticky bits. *)
Lemma round_nearest_even_spec mrs x :
  inbetween mrs x ->
  let m' := round_nearest_even (shr_m mrs) (loc_of_shr_record mrs) in
  (m' = shr_m mrs \/ m' = (shr_m mrs + 1)%Z)
  /\ - / 2 <= IZR m' - x <= / 2
  /\ (shr_r mrs = false -> shr_s mrs = false -> IZR m' = x).
Proof.
  destruct mrs as [m r s]. unfold inbetween. cbn [shr_m shr_r shr_s].
  intros H. destruct r, s; cbn [loc_of_shr_record round_nearest_even].
  - split; [now right|]. rewrite plus_IZR. split; [lra | discriminate].
  - destruct (Z.even m); (split; [auto|]); rewrite ?plus_IZR;
      (split; [lra | discriminate]).
  - split; [now left|]. split; [lra | discriminate].
  - split; [now left|]. split; [lra | intros; lra].
Qed.

(** *** The rounding core *)

Lemma fexp_53 e : fexp prec emax e = fexp53 e.
Proof. reflexivity. Qed.

Lemma fexp53_mono a b : (a <= b)%Z -> (fexp53 a <= fexp53 b)%Z.
Proof. unfold fexp53. lia. Qed.

Lemma Zdigits2_nonneg m : (0 <= Zdigits2 m)%Z.
Proof. destruct m; simpl; lia. Qed.

Lemma Zdigits2_bounds m :
  (0 < m)%Z -> (2 ^ (Zdigits2 m - 1) <= m < 2 ^ Zdigits2 m)%Z.
Proof. destruct m as [|p|p]; try lia. intros _. apply digits_bounds. Qed.

Lemma Zdigits2_lt m : (0 <= m)%Z -> (m < 2 ^ Zdigits2 m)%Z.
Proof.
  intros H. destruct (Z.eq_dec m 0) as [->|Hn]; [simpl; lia|].
  apply Zdigits2_bounds. lia.
Qed.

Lemma Zdigits2_le m k :
  (0 <= m)%Z -> (0 <= k)%Z -> (m < 2 ^ k)%Z -> (Zdigits2 m <= k)%Z.
Proof.
  intros Hm Hk H. destruct (Z.eq_dec m 0) as [->|Hn]; [simpl; lia|].
  destruct (Zdigits2_bounds m ltac:(lia)) as [Hlo _].
  destruct (Z_le_gt_dec (Zdigits2 m) k) as [|Hgt]; [assumption|].
  assert (2 ^ k <= 2 ^ (Zdigits2 m - 1))%Z by (apply Z.pow_le_mono_r; lia).
  lia.
Qed.

Lemma shr_m_of_loc m l : shr_m (shr_record_of_loc m l) = m.
Proof. destruct l as [|[]]; reflexivity. Qed.

Lemma IZR_lt_bpow m k : (0 <= k)%Z -> (m < 2 ^ k)%Z -> IZR m < bpow k.
Proof. intros Hk H. rewrite bpow_IZR by exact Hk. now apply IZR_lt. Qed.

(** [binary_round_aux] on a mantissa [mx] with location [lx] of the exact
    [x], at exponent [ex]: below the overflow threshold the result is
    finite and within half a unit of the last place of [x * 2 ^ ex]. *)
Lemma binary_round_aux_correct (sx : bool) (mx ex : Z) (lx : location) (x : R) :
  (0 <= mx)%Z ->
  inbetween (shr_record_of_loc mx lx) x ->
  let e1 := Z.max ex (fexp53 (Zdigits2 mx + ex)) in
  (e1 <= 970)%Z ->
  let r := binary_round_aux prec emax sx mx ex lx in
  SFfin r = true
  /\ exists err, SF2R r = sgn sx * (x * bpow ex + err)
       /\ Rabs err <= bpow e1 / 2
       /\ (lx = loc_Exact -> e1 = ex -> err = 0).
Proof.
  intros Hmx Hx e1 He1 r. subst r.
  unfold binary_round_aux, shr_fexp. rewrite !fexp_53.
  set (d := Zdigits2 mx) in *.
  set (n := (fexp53 (d + ex) - ex)%Z).
  assert (Hm0 : (0 <= shr_m (shr_record_of_loc mx lx))%Z)
    by (rewrite shr_m_of_loc; exact Hmx).
  destruct (shr_inbetween _ ex n x Hm0 Hx) as (He' & Hin1 & Hm1).
  destruct (shr (shr_record_of_loc mx lx) ex n) as [mrs' e'] eqn:Hshr1.
  cbn [fst snd] in He', Hin1, Hm1. rewrite ?fexp_53.
  assert (Ee1 : e' = e1) by (unfold e1, n in *; lia).
  set (x1 := x * bpow (- Z.max n 0)) in *.
  assert (Hx1 : x1 * bpow e1 = x * bpow ex).
  { unfold x1. rewrite Rmult_assoc, <- bpow_add. f_equal. f_equal.
    unfold e1, n. lia. }
  destruct (round_nearest_even_spec _ _ Hin1) as (Hm2 & Herr & Hexact).
  set (m2 := round_nearest_even (shr_m mrs') (loc_of_shr_record mrs')) in *.
  assert (Hm2pos : (0 <= m2)%Z) by lia.
  (* size of x1 *)
  set (k := (d + ex - e1)%Z).
  assert (Hxd : x < bpow d).
  { pose proof (inbetween_bounds _ _ Hx) as Hb. rewrite shr_m_of_loc in Hb.
    pose proof (Zdigits2_lt mx Hmx) as Hlt. fold d in Hlt.
    assert (IZR mx + 1 <= bpow d).
    { rewrite bpow_IZR by apply Zdigits2_nonneg. rewrite <- plus_IZR.
      apply IZR_le. lia. }
    lra. }
  assert (Hx1k : x1 < bpow k).
  { unfold x1, k. replace (d + ex - e1)%Z with (d + - Z.max n 0)%Z
      by (unfold e1, n; lia).
    rewrite bpow_add. pose proof (bpow_pos (- Z.max n 0)). nra. }
  assert (Hemin : (-1074 <= e1)%Z) by (unfold e1, fexp53; lia).
  (* the second shift is exact *)
  assert (Hm1b := inbetween_bounds _ _ Hin1).
  set (n2 := (fexp53 (Zdigits2 m2 + e') - e')%Z).
  assert (Hrec2 : inbetween (shr_record_of_loc m2 loc_Exact) (IZR m2))
    by reflexivity.
  assert (Hm02 : (0 <= shr_m (shr_record_of_loc m2 loc_Exact))%Z)
    by exact Hm2pos.
  destruct (shr_inbetween _ e' n2 _ Hm02 Hrec2) as (He'' & Hin3 & Hm3).
  destruct (shr (shr_record_of_loc m2 loc_Exact) e' n2) as [mrs'' e''] eqn:Hshr2.
  cbn [fst snd] in He'', Hin3, Hm3.
  assert (Hfinal : IZR (shr_m mrs'') * bpow e'' = IZR m2 * bpow e1
                   /\ (e'' <= e1 + 1)%Z).
  { destruct (Z_le_gt_dec n2 0) as [Hn2|Hn2].
    - (* no shift *)
      unfold shr in Hshr2. destruct n2 as [|p|p]; try lia;
        injection Hshr2 as <- <-; rewrite Ee1; split; try reflexivity; lia.
    - (* a shift: m2 is a power of two *)
      assert (Hk : (0 <= k)%Z).
      { destruct (Z_le_gt_dec 0 k) as [|Hk]; [assumption|exfalso].
        assert (bpow k <= / 2).
        { rewrite <- bpow_m1. apply bpow_le. lia. }
        assert (Hz1 : shr_m mrs' = 0%Z).
        { assert (IZR (shr_m mrs') < 1) by lra.
          apply lt_IZR in H0. lia. }
        assert (Hz2 : m2 = 0%Z).
        { unfold m2. rewrite Hz1.
          unfold inbetween in Hin1. rewrite Hz1 in Hin1.
          destruct mrs' as [m' r' s']. cbn [shr_m shr_r shr_s] in *.
          destruct r', s'; cbn [loc_of_shr_record round_nearest_even];
            try reflexivity; lra. }
        unfold n2 in Hn2. rewrite Hz2 in Hn2. cbn [Zdigits2] in Hn2.
        unfold fexp53 in Hn2. lia. }
      assert (Hm2le : (m2 <= 2 ^ k)%Z).
      { assert (IZR m2 < bpow k + 1) by lra.
        rewrite bpow_IZR, <- plus_IZR in H by exact Hk.
        apply lt_IZR in H. lia. }
      assert (Hd2 : (Zdigits2 m2 <= k + 1)%Z).
      { apply Zdigits2_le; try lia.
        rewrite Z.pow_add_r by lia. pose proof (Z.pow_pos_nonneg 2 k). lia. }
      assert (Hk53 : (n2 = 1 /\ k = 53 /\ e1 = d + ex - 53)%Z).
      { unfold n2 in *. rewrite Ee1 in *. unfold k in *.
        assert (fexp53 (Zdigits2 m2 + e1) <= fexp53 (d + ex + 1))%Z
          by (apply fexp53_mono; lia).
        unfold e1, fexp53 in *. lia. }
      destruct Hk53 as (En2 & Ek & Ee).
      assert (Em2 : m2 = (2 ^ k)%Z).
      { destruct (Z.eq_dec m2 (2 ^ k)) as [|Hne]; [assumption|exfalso].
        assert (Zdigits2 m2 <= k)%Z by (apply Zdigits2_le; lia).
        unfold n2 in En2. rewrite Ee1 in En2.
        assert (fexp53 (Zdigits2 m2 + e1) <= fexp53 (d + ex))%Z
          by (apply fexp53_mono; unfold k in *; lia).
        unfold e1, fexp53 in *. lia. }
      rewrite En2 in *. change (Z.max 1 0) with 1%Z in *.
      change (- (1))%Z with (-1)%Z in Hin3. rewrite bpow_m1 in Hin3.
      pose proof (inbetween_bounds _ _ Hin3) as Hb3.
      assert (E3 : shr_m mrs'' = (2 ^ (k - 1))%Z).
      { assert (E2k : IZR m2 * / 2 = IZR (2 ^ (k - 1))).
        { rewrite Em2. replace k with (k - 1 + 1)%Z at 1 by lia.
          rewrite Z.pow_add_r by lia. rewrite mult_IZR. simpl (IZR (2 ^ 1)).
          lra. }
        rewrite E2k in Hb3. destruct Hb3 as [Hlo Hhi].
        apply le_IZR in Hlo. rewrite <- plus_IZR in Hhi. apply lt_IZR in Hhi.
        lia. }
      split; [|lia].
      rewrite E3, Em2, He'', Ee1.
      rewrite <- !bpow_IZR by lia. rewrite <- !bpow_add. f_equal. lia. }
  destruct Hfinal as [Hval He''le].
  assert (Hres : forall err0, err0 = IZR m2 - x1 ->
            sgn sx * (IZR (shr_m mrs'') * bpow e'')
            = sgn sx * (x * bpow ex + err0 * bpow e1)).
  { intros err0 ->. rewrite Hval, <- Hx1. f_equal. ring. }
  assert (Herrb : Rabs ((IZR m2 - x1) * bpow e1) <= bpow e1 / 2).
  { rewrite Rabs_mult, (Rabs_pos_eq (bpow e1)) by (left; apply bpow_pos).
    assert (Rabs (IZR m2 - x1) <= / 2) by (apply Rabs_le; lra).
    pose proof (bpow_pos e1). nra. }
  assert (Hex0 : lx = loc_Exact -> e1 = ex -> (IZR m2 - x1) * bpow e1 = 0).
  { intros -> Heq.
    assert (n <= 0)%Z by (unfold e1, n in *; lia).
    assert (mrs' = shr_record_of_loc mx loc_Exact).
    { unfold shr in Hshr1. destruct n; try lia; now injection Hshr1. }
    subst mrs'. rewrite (Hexact eq_refl eq_refl). ring. }
  destruct (shr_m mrs'') as [|m3|m3] eqn:Em3; try lia.
  - split; [reflexivity|]. exists ((IZR m2 - x1) * bpow e1).
    split; [|split; assumption].
    cbn [SF2R]. rewrite <- (Hres _ eq_refl). simpl. ring.
  - assert (Hle : (e'' <=? emax - prec)%Z = true)
      by (apply Z.leb_le; change (emax - prec)%Z with 971%Z; lia).
    rewrite Hle. split; [reflexivity|]. exists ((IZR m2 - x1) * bpow e1).
    split; [|split; assumption].
    cbn [SF2R]. now rewrite <- (Hres _ eq_refl).
Qed.

(** *** Valid binary64 numbers *)

(** A valid finite number has its canonical exponent. *)
Lemma valid_finite s m e :
  valid_binary (S754_finite s m e) = true ->
  (fexp53 (Z.pos (digits2_pos m) + e) = e /\ e <= 971)%Z.
Proof.
  unfold SpecFloat.valid_binary, bounded, canonical_mantissa.
  change (fexp prec emax (Z.pos (digits2_pos m) + e))
    with (fexp53 (Z.pos (digits2_pos m) + e)).
  change (emax - prec)%Z with 971%Z.
  intros H. apply andb_true_iff in H as [H1 H2].
  apply Z.eqb_eq in H1. apply Z.leb_le in H2. auto.
Qed.

Lemma Zdigits2_unique m k :
  (2 ^ (k - 1) <= m < 2 ^ k)%Z -> (1 <= k)%Z -> Zdigits2 m = k.
Proof.
  intros [Hlo Hhi] Hk.
  assert (0 < m)%Z by (pose proof (Z.pow_pos_nonneg 2 (k - 1)); lia).
  destruct (Zdigits2_bounds m H) as [Hlo' Hhi'].
  pose proof (Zdigits2_nonneg m).
  assert (Zdigits2 m <= k)%Z by (apply Zdigits2_le; lia).
  destruct (Z_le_gt_dec k (Zdigits2 m)) as [|Hgt]; [lia|].
  assert (2 ^ Zdigits2 m <= 2 ^ (k - 1))%Z by (apply Z.pow_le_mono_r; lia).
  lia.
Qed.

Lemma IZR_ge_bpow m :
  (0 < m)%Z -> bpow (Zdigits2 m - 1) <= IZR m.
Proof.
  intros H. destruct (Zdigits2_bounds m H) as [Hlo _].
  assert (1 <= Zdigits2 m)%Z by (destruct m; simpl in *; lia).
  rewrite bpow_IZR by lia. now apply IZR_le.
Qed.

(** Half a unit in the last place is at most [u53] times the value, or
    [eta] in the subnormal range. *)
Lemma half_ulp_bound (X : R) (D e_in e1 : Z) (err : R) :
  e1 = Z.max e_in (fexp53 D) ->
  Rabs err <= bpow e1 / 2 ->
  (e1 = e_in -> err = 0) \/ (e_in <= fexp53 D)%Z ->
  bpow (D - 1) <= X \/ (D <= -1021)%Z ->
  0 <= X ->
  Rabs err <= u53 * X + eta.
Proof.
  intros He1 Herr Hex HX HX0.
  assert (Hpos : 0 <= u53 * X + eta).
  { unfold u53, eta. pose proof (bpow_pos (-53)). pose proof (bpow_pos (-1075)).
    nra. }
  destruct (Z_le_gt_dec e_in (fexp53 D)) as [Hle|Hgt].
  - assert (E : e1 = fexp53 D) by lia.
    rewrite <- bpow_pred in Herr. rewrite E in Herr.
    unfold fexp53 in Herr.
    destruct (Z_le_gt_dec (D - 53) (-1074)) as [Hsub|Hnorm].
    + replace (Z.max (D - 53) (-1074) - 1)%Z with (-1075)%Z in Herr by lia.
      unfold eta. pose proof (bpow_pos (-53)). unfold u53. nra.
    + replace (Z.max (D - 53) (-1074) - 1)%Z with (-53 + (D - 1))%Z in Herr
        by lia.
      rewrite bpow_add in Herr. destruct HX as [HX|HX]; [|lia].
      unfold u53, eta. pose proof (bpow_pos (-53)). pose proof (bpow_pos (-1075)).
      nra.
  - destruct Hex as [Hex|Hex]; [|lia].
    rewrite (Hex ltac:(lia)), Rabs_R0. exact Hpos.
Qed.

(** *** Multiplication *)

Lemma sgn_xorb a b : sgn (xorb a b) = sgn a * sgn b.
Proof. destruct a, b; simpl; lra. Qed.

Lemma Rabs_sgn s x : Rabs (sgn s * x) = Rabs x.
Proof. destruct s; simpl; [rewrite <- Rabs_Ropp; f_equal; lra | f_equal; lra]. Qed.

Lemma SF2R_abs s m e : Rabs (SF2R (S754_finite s m e)) = IZR (Z.pos m) * bpow e.
Proof.
  cbn [SF2R]. rewrite Rabs_sgn. apply Rabs_pos_eq.
  pose proof (bpow_pos e). assert (0 < IZR (Z.pos m)) by (apply IZR_lt; lia).
  nra.
Qed.

Lemma bpow_lt_inv a b : bpow a < bpow b -> (a < b)%Z.
Proof.
  intros H. destruct (Z_lt_le_dec a b) as [|Hle]; [assumption|].
  pose proof (bpow_le _ _ Hle). lra.
Qed.

(** The product is the exact product, rounded. *)
Lemma SFmul_correct (x y : spec_float) :
  valid_binary x = true -> valid_binary y = true ->
  SFfin x = true -> SFfin y = true ->
  Rabs (SF2R x * SF2R y) < bpow 1000 ->
  SFfin (SFmul prec emax x y) = true
  /\ exists err, SF2R (SFmul prec emax x y) = SF2R x * SF2R y + err
       /\ Rabs err <= u53 * Rabs (SF2R x * SF2R y) + eta.
Proof.
  intros Vx Vy Fx Fy Hb.
  assert (Hz : forall a, 0 = a -> exists err : R, 0 = a + err /\
              Rabs err <= u53 * Rabs a + eta).
  { intros a <-. exists 0. rewrite Rabs_R0. unfold eta.
    pose proof (bpow_pos (-1075)). split; lra. }
  destruct x as [sx|sx| |sx mx ex], y as [sy|sy| |sy my ey]; try discriminate;
    cbn [SFmul]; try (split; [reflexivity|]; cbn [SF2R]; apply Hz; ring).
  destruct (valid_finite _ _ _ Vx) as [Cx Ex].
  destruct (valid_finite _ _ _ Vy) as [Cy Ey].
  rewrite Rabs_mult, !SF2R_abs in Hb.
  set (M := Z.pos (mx * my)).
  assert (HM : IZR M = IZR (Z.pos mx) * IZR (Z.pos my)).
  { unfold M. now rewrite Pos2Z.inj_mul, mult_IZR. }
  set (X := IZR M * bpow (ex + ey)).
  assert (HX : X = IZR (Z.pos mx) * bpow ex * (IZR (Z.pos my) * bpow ey)).
  { unfold X. rewrite HM, bpow_add. ring. }
  assert (HMpos : (0 < M)%Z) by (unfold M; lia).
  pose proof (IZR_ge_bpow M HMpos) as HMlo.
  set (d := Zdigits2 M) in *.
  assert (HD : (d + (ex + ey) <= 1000)%Z).
  { assert (bpow (d - 1 + (ex + ey)) < bpow 1000).
    { rewrite bpow_add. rewrite <- HX in Hb. unfold X in Hb.
      pose proof (bpow_pos (ex + ey)). nra. }
    apply bpow_lt_inv in H. lia. }
  assert (Hd : (Z.pos (digits2_pos mx) + Z.pos (digits2_pos my) - 1 <= d)%Z).
  { destruct (digits_bounds mx) as [Lx _]. destruct (digits_bounds my) as [Ly _].
    pose proof (Zdigits2_lt M ltac:(lia)) as HltM. fold d in HltM.
    destruct (Z_le_gt_dec
                (Z.pos (digits2_pos mx) + Z.pos (digits2_pos my) - 1) d)
      as [|Hgt]; [assumption|exfalso].
    assert (2 ^ d <= 2 ^ (Z.pos (digits2_pos mx) - 1 + (Z.pos (digits2_pos my) - 1)))%Z
      by (apply Z.pow_le_mono_r; lia).
    rewrite Z.pow_add_r in H by lia.
    assert (M = Z.pos mx * Z.pos my)%Z by (unfold M; lia).
    nia. }
  assert (He1 : (Z.max (ex + ey) (fexp53 (d + (ex + ey))) <= 970)%Z).
  { unfold fexp53 in *. lia. }
  destruct (binary_round_aux_correct (xorb sx sy) M (ex + ey) loc_Exact (IZR M)
              ltac:(lia) (inbetween_of_loc M) He1) as (Hfin & err & Hval & Herr & Hex).
  split; [exact Hfin|].
  exists (sgn (xorb sx sy) * err). split.
  - rewrite Hval. cbn [SF2R]. rewrite sgn_xorb, HM, bpow_add. ring.
  - rewrite Rabs_sgn, Rabs_mult, !SF2R_abs, <- HX.
    apply (half_ulp_bound X (d + (ex + ey)) (ex + ey) _ err eq_refl Herr).
    + left. intros E. now apply Hex.
    + left. unfold X. replace (d + (ex + ey) - 1)%Z with (d - 1 + (ex + ey))%Z by lia.
      rewrite bpow_add. pose proof (bpow_pos (ex + ey)). nra.
    + unfold X. pose proof (bpow_pos (ex + ey)).
      assert (0 < IZR M) by (apply IZR_lt; lia). nra.
Qed.

(** *** Addition and subtraction *)

Lemma iter_xO (m d : positive) :
  Z.pos (Pos.iter xO m d) = (Z.pos m * 2 ^ Z.pos d)%Z.
Proof.
  induction d as [|d IH] using Pos.peano_ind.
  - simpl. lia.
  - rewrite Pos.iter_succ, Pos2Z.inj_xO, IH, Pos2Z.inj_succ, Z.pow_succ_r by lia.
    lia.
Qed.

Lemma shl_align_spec (mx : positive) (ex ex' : Z) :
  snd (shl_align mx ex ex') = Z.min ex ex'
  /\ Z.pos (fst (shl_align mx ex ex'))
     = (Z.pos mx * 2 ^ (ex - Z.min ex ex'))%Z.
Proof.
  unfold shl_align. destruct (ex' - ex)%Z as [|d|d] eqn:E; cbn [fst snd].
  - replace (Z.min ex ex') with ex by lia. rewrite Z.sub_diag. split; lia.
  - replace (Z.min ex ex') with ex by lia. rewrite Z.sub_diag. split; lia.
  - replace (Z.min ex ex') with ex' by lia. split; [reflexivity|].
    rewrite iter_xO. f_equal. f_equal. lia.
Qed.

Lemma Zdigits2_shift (m k : Z) :
  (0 < m)%Z -> (0 <= k)%Z -> Zdigits2 (m * 2 ^ k) = (Zdigits2 m + k)%Z.
Proof.
  intros Hm Hk. destruct (Zdigits2_bounds m Hm) as [Hlo Hhi].
  assert (1 <= Zdigits2 m)%Z by (destruct m; simpl in *; lia).
  pose proof (Z.pow_pos_nonneg 2 k ltac:(lia) Hk).
  apply Zdigits2_unique; [|lia]. split.
  - replace (Zdigits2 m + k - 1)%Z with (Zdigits2 m - 1 + k)%Z by lia.
    rewrite Z.pow_add_r by lia. nia.
  - rewrite Z.pow_add_r by lia. nia.
Qed.

Lemma binary_round_correct (sx : bool) (mx : positive) (ex : Z) :
  IZR (Z.pos mx) * bpow ex < bpow 1000 ->
  let r := binary_round prec emax sx mx ex in
  SFfin r = true
  /\ exists err, SF2R r = sgn sx * (IZR (Z.pos mx) * bpow ex + err)
       /\ Rabs err <= u53 * (IZR (Z.pos mx) * bpow ex) + eta.
Proof.
  intros Hb r. subst r. unfold binary_round.
  change (fexp prec emax (Z.pos (digits2_pos mx) + ex))
    with (fexp53 (Z.pos (digits2_pos mx) + ex)).
  set (D := (Z.pos (digits2_pos mx) + ex)%Z).
  destruct (shl_align_spec mx ex (fexp53 D)) as [Hez Hmz].
  destruct (shl_align mx ex (fexp53 D)) as [mz ez]. cbn [fst snd] in Hez, Hmz.
  assert (Hdz : (Zdigits2 (Z.pos mz) + ez = D)%Z).
  { rewrite Hmz, Zdigits2_shift by lia. simpl Zdigits2. unfold D in *. lia. }
  assert (HX : IZR (Z.pos mz) * bpow ez = IZR (Z.pos mx) * bpow ex).
  { rewrite Hmz, mult_IZR, <- bpow_IZR by lia.
    rewrite Rmult_assoc, <- bpow_add. f_equal. f_equal. lia. }
  pose proof (IZR_ge_bpow (Z.pos mx) ltac:(lia)) as Hlo. simpl Zdigits2 in Hlo.
  assert (HXlo : bpow (D - 1) <= IZR (Z.pos mx) * bpow ex).
  { unfold D. replace (Z.pos (digits2_pos mx) + ex - 1)%Z
      with (Z.pos (digits2_pos mx) - 1 + ex)%Z by lia.
    rewrite bpow_add. pose proof (bpow_pos ex). nra. }
  assert (HD : (D <= 1000)%Z).
  { assert (bpow (D - 1) < bpow 1000) by lra. apply bpow_lt_inv in H. lia. }
  assert (He1 : (Z.max ez (fexp53 (Zdigits2 (Z.pos mz) + ez)) <= 970)%Z).
  { rewrite Hdz. unfold fexp53 in *. lia. }
  destruct (binary_round_aux_correct sx (Z.pos mz) ez loc_Exact (IZR (Z.pos mz))
              ltac:(lia) (inbetween_of_loc _) He1)
    as (Hfin & err & Hval & Herr & Hex).
  split; [exact Hfin|]. exists err. split; [now rewrite Hval, HX|].
  rewrite Hdz in Herr, Hex.
  apply (half_ulp_bound _ D ez _ err eq_refl Herr).
  - left. intros E. now apply Hex.
  - now left.
  - pose proof (bpow_pos (D - 1)). lra.
Qed.

Lemma binary_normalize_correct (S ez : Z) (b : bool) :
  Rabs (IZR S * bpow ez) < bpow 1000 ->
  let r := binary_normalize prec emax S ez b in
  SFfin r = true
  /\ exists err, SF2R r = IZR S * bpow ez + err
       /\ Rabs err <= u53 * Rabs (IZR S * bpow ez) + eta.
Proof.
  intros Hb r. subst r. pose proof (bpow_pos ez) as Hez.
  destruct S as [|p|p]; cbn [binary_normalize].
  - split; [reflexivity|]. exists 0. rewrite Rmult_0_l, Rabs_R0.
    unfold eta. pose proof (bpow_pos (-1075)). cbn [SF2R]. split; lra.
  - assert (Hp : 0 < IZR (Z.pos p)) by (apply IZR_lt; lia).
    rewrite Rabs_pos_eq in Hb |- * by nra.
    destruct (binary_round_correct false p ez Hb) as (Hfin & err & Hval & Herr).
    split; [exact Hfin|]. exists err. split; [|exact Herr].
    rewrite Hval. simpl sgn. ring.
  - assert (Hp : 0 < IZR (Z.pos p)) by (apply IZR_lt; lia).
    assert (E : IZR (Z.neg p) = - IZR (Z.pos p)) by (rewrite <- opp_IZR; reflexivity).
    rewrite E in *.
    replace (- IZR (Z.pos p) * bpow ez) with (- (IZR (Z.pos p) * bpow ez)) in * by ring.
    rewrite Rabs_Ropp, Rabs_pos_eq in Hb |- * by nra.
    destruct (binary_round_correct true p ez Hb) as (Hfin & err & Hval & Herr).
    split; [exact Hfin|]. exists (- err). split.
    + rewrite Hval. simpl sgn. ring.
    + now rewrite Rabs_Ropp.
Qed.

Lemma cond_Zopp_IZR (s : bool) (m : Z) : IZR (cond_Zopp s m) = sgn s * IZR m.
Proof. destruct s; simpl; [rewrite opp_IZR|]; ring. Qed.

Lemma aligned_value (s : bool) (m : positive) (e ez : Z) :
  (ez <= e)%Z ->
  IZR (cond_Zopp s (Z.pos (fst (shl_align m e ez)))) * bpow ez
  = SF2R (S754_finite s m e).
Proof.
  intros H. destruct (shl_align_spec m e ez) as [_ Hm].
  rewrite cond_Zopp_IZR, Hm, mult_IZR, <- bpow_IZR by lia. cbn [SF2R].
  rewrite !Rmult_assoc, <- bpow_add. do 3 f_equal. lia.
Qed.

Lemma exact_result (a b : R) :
  a = b -> exists err : R, a = b + err /\ Rabs err <= u53 * Rabs b + eta.
Proof.
  intros ->. exists 0. rewrite Rabs_R0. unfold u53, eta.
  pose proof (bpow_pos (-1075)). pose proof (bpow_pos (-53)).
  pose proof (Rabs_pos b). split; [lra | nra].
Qed.

(** The sum is the exact sum, rounded. *)
Lemma SFadd_correct (x y : spec_float) :
  SFfin x = true -> SFfin y = true ->
  Rabs (SF2R x + SF2R y) < bpow 1000 ->
  SFfin (SFadd prec emax x y) = true
  /\ exists err, SF2R (SFadd prec emax x y) = SF2R x + SF2R y + err
       /\ Rabs err <= u53 * Rabs (SF2R x + SF2R y) + eta.
Proof.
  intros Fx Fy Hb.
  destruct x as [sx|sx| |sx mx ex], y as [sy|sy| |sy my ey]; try discriminate;
    cbn [SFadd].
  - split; [now destruct sx, sy|].
    apply exact_result. destruct sx, sy; simpl; ring.
  - split; [reflexivity|].
    apply exact_result. cbn [SF2R]. ring.
  - split; [reflexivity|].
    apply exact_result. cbn [SF2R]. ring.
  - set (ez := Z.min ex ey).
    set (S := (cond_Zopp sx (Z.pos (fst (shl_align mx ex ez)))
               + cond_Zopp sy (Z.pos (fst (shl_align my ey ez))))%Z).
    assert (HS : IZR S * bpow ez
                 = SF2R (S754_finite sx mx ex) + SF2R (S754_finite sy my ey)).
    { unfold S. rewrite plus_IZR, Rmult_plus_distr_r.
      rewrite !aligned_value by (unfold ez; lia). reflexivity. }
    rewrite <- HS in Hb |- *.
    apply binary_normalize_correct. exact Hb.
Qed.

(** The difference is the exact difference, rounded. *)
Lemma SFsub_correct (x y : spec_float) :
  SFfin x = true -> SFfin y = true ->
  Rabs (SF2R x - SF2R y) < bpow 1000 ->
  SFfin (SFsub prec emax x y) = true
  /\ exists err, SF2R (SFsub prec emax x y) = SF2R x - SF2R y + err
       /\ Rabs err <= u53 * Rabs (SF2R x - SF2R y) + eta.
Proof.
  intros Fx Fy Hb.
  destruct x as [sx|sx| |sx mx ex], y as [sy|sy| |sy my ey]; try discriminate;
    cbn [SFsub].
  - split; [now destruct sx, sy|].
    apply exact_result. destruct sx, sy; simpl; ring.
  - split; [reflexivity|].
    apply exact_result. cbn [SF2R]. destruct sy; simpl; ring.
  - split; [reflexivity|].
    apply exact_result. cbn [SF2R]. ring.
  - set (ez := Z.min ex ey).
    set (S := (cond_Zopp sx (Z.pos (fst (shl_align mx ex ez)))
               - cond_Zopp sy (Z.pos (fst (shl_align my ey ez))))%Z).
    assert (HS : IZR S * bpow ez
                 = SF2R (S754_finite sx mx ex) - SF2R (S754_finite sy my ey)).
    { unfold S. rewrite minus_IZR, Rmult_minus_distr_r.
      rewrite !aligned_value by (unfold ez; lia). reflexivity. }
    rewrite <- HS in Hb |- *.
    apply binary_normalize_correct. exact Hb.
Qed.

(** *** Division *)

(** The location [SFdiv_core_binary] computes for the remainder. *)
Lemma new_location_inbetween (m2 r q : Z) :
  (0 < m2)%Z -> (0 <= r < m2)%Z ->
  inbetween (shr_record_of_loc q (new_location m2 r)) (IZR q + IZR r / IZR m2).
Proof.
  intros Hm [Hr0 Hr].
  assert (Hb : 0 < IZR m2) by (apply IZR_lt; lia).
  assert (Ha : 0 <= IZR r) by (apply IZR_le; lia).
  assert (Hi : 0 < / IZR m2) by (apply Rinv_0_lt_compat; exact Hb).
  assert (Hd : IZR r / IZR m2 * IZR m2 = IZR r) by (field; lra).
  set (t := IZR r / IZR m2) in *.
  assert (Hlt : forall a b : Z, (a < b)%Z -> IZR a < IZR b) by (intros; now apply IZR_lt).
  unfold new_location.
  destruct (Z.even m2) eqn:Ev.
  - unfold new_location_even. destruct (Z.eqb_spec r 0) as [->|Hn].
    + unfold inbetween. cbn. unfold t, Rdiv. lra.
    + assert (0 < IZR r) by (apply IZR_lt; lia).
      destruct (Z.compare_spec (2 * r) m2) as [E|E|E];
        unfold inbetween; cbn [shr_record_of_loc shr_m shr_r shr_s].
      * assert (IZR m2 = 2 * IZR r) by (rewrite <- E, mult_IZR; reflexivity).
        nra.
      * apply Hlt in E. rewrite mult_IZR in E. nra.
      * apply Hlt in E. rewrite mult_IZR in E. apply Hlt in Hr. nra.
  - unfold new_location_odd. destruct (Z.eqb_spec r 0) as [->|Hn].
    + unfold inbetween. cbn. unfold t, Rdiv. lra.
    + assert (0 < IZR r) by (apply IZR_lt; lia).
      assert (Hodd : (2 * r <> m2)%Z).
      { intros <-. rewrite Z.even_mul in Ev. discriminate. }
      destruct (Z.compare_spec (2 * r + 1) m2) as [E|E|E];
        unfold inbetween; cbn [shr_record_of_loc shr_m shr_r shr_s].
      * assert (2 * r < m2)%Z as E' by lia.
        apply Hlt in E'. rewrite mult_IZR in E'. nra.
      * assert (2 * r < m2)%Z as E' by lia.
        apply Hlt in E'. rewrite mult_IZR in E'. nra.
      * assert (m2 < 2 * r)%Z as E' by lia.
        apply Hlt in E'. rewrite mult_IZR in E'. apply Hlt in Hr. nra.
Qed.

Lemma SFdiv_core_correct (m1 m2 : positive) (e1 e2 : Z) (q e' : Z) (l : location) :
  SFdiv_core_binary prec emax (Z.pos m1) e1 (Z.pos m2) e2 = (q, e', l) ->
  (0 <= q)%Z
  /\ (e' <= fexp53 (Zdigits2 q + e'))%Z
  /\ exists x, inbetween (shr_record_of_loc q l) x
       /\ x * bpow e' = IZR (Z.pos m1) * bpow e1 / (IZR (Z.pos m2) * bpow e2).
Proof.
  unfold SFdiv_core_binary.
  change (fexp prec emax (Zdigits2 (Z.pos m1) + e1 - (Zdigits2 (Z.pos m2) + e2)))
    with (fexp53 (Zdigits2 (Z.pos m1) + e1 - (Zdigits2 (Z.pos m2) + e2))).
  set (d1 := Zdigits2 (Z.pos m1)). set (d2 := Zdigits2 (Z.pos m2)).
  set (z := (d1 + e1 - (d2 + e2))%Z).
  set (e0 := Z.min (fexp53 z) (e1 - e2)).
  set (s := (e1 - e2 - e0)%Z).
  assert (Hs : (0 <= s)%Z) by (unfold s, e0; lia).
  set (m' := match s with
             | 0%Z => Z.pos m1
             | Z.pos _ => Z.shiftl (Z.pos m1) s
             | Z.neg _ => 0%Z
             end).
  assert (Hm' : m' = (Z.pos m1 * 2 ^ s)%Z).
  { unfold m'. destruct s as [|p|p] eqn:Es; try lia.
    now rewrite Z.shiftl_mul_pow2 by lia. }
  clearbody m'.
  pose proof (Z_div_mod m' (Z.pos m2) ltac:(lia)) as Hdm.
  destruct (Z.div_eucl m' (Z.pos m2)) as [q0 r]. destruct Hdm as [Hdm Hr].
  intros E. injection E as <- <- <-.
  pose proof (Z.pow_pos_nonneg 2 s ltac:(lia) Hs) as Hps.
  assert (Hq : (0 <= q0)%Z) by nia.
  split; [exact Hq|]. split.
  - destruct (Z_le_gt_dec e0 (-1074)) as [Hlow|Hhigh].
    + unfold fexp53. lia.
    + assert (He0 : (e0 <= z - 53)%Z) by (unfold e0, fexp53 in *; lia).
      destruct (Zdigits2_bounds (Z.pos m1) ltac:(lia)) as [L1 _].
      destruct (Zdigits2_bounds (Z.pos m2) ltac:(lia)) as [_ U2].
      fold d1 in L1. fold d2 in U2.
      assert (1 <= d1)%Z by (unfold d1; simpl; lia).
      assert (1 <= d2)%Z by (unfold d2; simpl; lia).
      set (k := (d1 - 1 + s - d2)%Z).
      assert (Hk : (52 <= k)%Z) by (unfold k, s, z in *; lia).
      assert (Hpow : (2 ^ (d1 - 1) * 2 ^ s = 2 ^ k * 2 ^ d2)%Z).
      { rewrite <- !Z.pow_add_r by lia. f_equal. unfold k. lia. }
      pose proof (Z.pow_pos_nonneg 2 k ltac:(lia) ltac:(lia)) as Hpk.
      assert (Hqk : (2 ^ k <= q0)%Z) by nia.
      pose proof (Zdigits2_lt q0 Hq) as Hlt.
      assert (k < Zdigits2 q0)%Z.
      { apply (Z.pow_lt_mono_r_iff 2); [lia | apply Zdigits2_nonneg | lia]. }
      assert (z <= Zdigits2 q0 + e0)%Z by (unfold k, s, z in *; lia).
      pose proof (fexp53_mono _ _ H2). unfold e0 in *. lia.
  - exists (IZR q0 + IZR r / IZR (Z.pos m2)). split.
    + apply new_location_inbetween; lia.
    + assert (Hb : 0 < IZR (Z.pos m2)) by (apply IZR_lt; lia).
      pose proof (bpow_pos e2). pose proof (bpow_pos e0).
      assert (Hv : IZR m' = IZR (Z.pos m2) * IZR q0 + IZR r)
        by (rewrite Hdm, plus_IZR, mult_IZR; reflexivity).
      rewrite Hm', mult_IZR, <- bpow_IZR in Hv by exact Hs.
      assert (He : bpow e1 = bpow s * bpow e0 * bpow e2).
      { rewrite <- !bpow_add. f_equal. unfold s. lia. }
      rewrite He. field_simplify_eq; [|lra]. nra.
Qed.

(** The quotient is the exact quotient, rounded. *)
Lemma SFdiv_correct (x y : spec_float) :
  SFfin x = true -> SFfin y = true -> SF2R y <> 0 ->
  Rabs (SF2R x / SF2R y) < bpow 1000 ->
  SFfin (SFdiv prec emax x y) = true
  /\ exists err, SF2R (SFdiv prec emax x y) = SF2R x / SF2R y + err
       /\ Rabs err <= u53 * Rabs (SF2R x / SF2R y) + eta.
Proof.
  intros Fx Fy Hy Hb.
  destruct x as [sx|sx| |sx mx ex], y as [sy|sy| |sy my ey]; try discriminate;
    cbn [SFdiv]; try (now exfalso; apply Hy).
  - split; [reflexivity|]. apply exact_result. cbn [SF2R]. unfold Rdiv. ring.
  - destruct (SFdiv_core_binary prec emax (Z.pos mx) ex (Z.pos my) ey)
      as [[q e'] l] eqn:E.
    destruct (SFdiv_core_correct _ _ _ _ _ _ _ E) as (Hq & Hfe & x0 & Hin & Hv).
    assert (Hmy : 0 < IZR (Z.pos my) * bpow ey).
    { pose proof (bpow_pos ey). assert (0 < IZR (Z.pos my)) by (apply IZR_lt; lia).
      nra. }
    assert (Hmx : 0 < IZR (Z.pos mx) * bpow ex).
    { pose proof (bpow_pos ex). assert (0 < IZR (Z.pos mx)) by (apply IZR_lt; lia).
      nra. }
    set (X := IZR (Z.pos mx) * bpow ex / (IZR (Z.pos my) * bpow ey)) in *.
    assert (HXpos : 0 < X) by (apply Rdiv_lt_0_compat; assumption).
    assert (HXabs : Rabs (SF2R (S754_finite sx mx ex) / SF2R (S754_finite sy my ey)) = X).
    { unfold Rdiv. rewrite Rabs_mult, Rabs_inv, !SF2R_abs. reflexivity. }
    rewrite HXabs in Hb |- *.
    pose proof (inbetween_bounds _ _ Hin) as Hx0. rewrite shr_m_of_loc in Hx0.
    pose proof (bpow_pos e') as He'.
    set (D := (Zdigits2 q + e')%Z) in *.
    assert (HD : (D <= 1000)%Z /\ (bpow (D - 1) <= X \/ (D <= -1021)%Z)).
    { destruct (Z.eq_dec q 0) as [->|Hn].
      - unfold D in *. simpl Zdigits2 in *. unfold fexp53 in Hfe. lia.
      - pose proof (IZR_ge_bpow q ltac:(lia)) as Hlo.
        assert (Hlo' : bpow (D - 1) <= X).
        { unfold D. replace (Zdigits2 q + e' - 1)%Z with (Zdigits2 q - 1 + e')%Z by lia.
          rewrite bpow_add, <- Hv. nra. }
        split; [|now left].
        assert (bpow (D - 1) < bpow 1000) by lra.
        apply bpow_lt_inv in H. lia. }
    destruct HD as [HD HXlo].
    assert (He1 : (Z.max e' (fexp53 D) <= 970)%Z) by (unfold fexp53 in *; lia).
    destruct (binary_round_aux_correct (xorb sx sy) q e' l x0 Hq Hin He1)
      as (Hfin & err & Hval & Herr & _).
    split; [exact Hfin|].
    exists (sgn (xorb sx sy) * err). split.
    + rewrite Hval, Hv. cbn [SF2R]. rewrite sgn_xorb. unfold X.
      pose proof (bpow_pos ey).
      assert (0 < IZR (Z.pos my)) by (apply IZR_lt; lia).
      destruct sx, sy; simpl sgn; field; repeat split; lra.
    + rewrite Rabs_sgn.
      apply (half_ulp_bound X D e' _ err eq_refl Herr).
      * now right.
      * exact HXlo.
      * lra.
Qed.

(** *** Comparison *)

Lemma valid_pos_lt (s1 s2 : bool) (m1 m2 : positive) (e1 e2 : Z) :
  valid_binary (S754_finite s1 m1 e1) = true ->
  valid_binary (S754_finite s2 m2 e2) = true ->
  (e1 < e2)%Z ->
  IZR (Z.pos m1) * bpow e1 < IZR (Z.pos m2) * bpow e2.
Proof.
  intros V1 V2 He.
  destruct (valid_finite _ _ _ V1) as [C1 _].
  destruct (valid_finite _ _ _ V2) as [C2 _].
  pose proof (IZR_ge_bpow (Z.pos m2) ltac:(lia)) as L2. simpl Zdigits2 in L2.
  pose proof (Zdigits2_lt (Z.pos m1) ltac:(lia)) as U1. simpl Zdigits2 in U1.
  apply IZR_lt_bpow in U1; [|lia].
  set (g1 := Z.pos (digits2_pos m1)) in *. set (g2 := Z.pos (digits2_pos m2)) in *.
  assert (G1 : (g1 <= 53)%Z) by (unfold fexp53 in C1; lia).
  assert (G2 : (g2 = 53)%Z) by (unfold fexp53 in C1, C2; lia).
  rewrite G2 in L2. change (53 - 1)%Z with 52%Z in L2.
  pose proof (bpow_le g1 53 G1) as B1.
  pose proof (bpow_le (53 + e1) (52 + e2) ltac:(lia)) as B2.
  rewrite !bpow_add in B2.
  pose proof (bpow_pos e1). pose proof (bpow_pos e2).
  apply Rlt_le_trans with (bpow 53 * bpow e1); [nra|].
  apply Rle_trans with (bpow 52 * bpow e2); [lra | nra].
Qed.

(** On valid finite numbers [SFcompare] is the order of the values. *)
Lemma SFcompare_spec (x y : spec_float) :
  valid_binary x = true -> valid_binary y = true ->
  SFfin x = true -> SFfin y = true ->
  compare_agrees (SFcompare x y) (SF2R x) (SF2R y).
Proof.
  intros Vx Vy Fx Fy.
  destruct x as [sx|sx| |sx mx ex], y as [sy|sy| |sy my ey]; try discriminate;
    cbn [SFcompare SF2R compare_agrees].
  - reflexivity.
  - assert (0 < IZR (Z.pos my) * bpow ey).
    { pose proof (bpow_pos ey). assert (0 < IZR (Z.pos my)) by (apply IZR_lt; lia).
      nra. }
    destruct sy; simpl; lra.
  - assert (0 < IZR (Z.pos mx) * bpow ex).
    { pose proof (bpow_pos ex). assert (0 < IZR (Z.pos mx)) by (apply IZR_lt; lia).
      nra. }
    destruct sx; simpl; lra.
  - assert (Hx : 0 < IZR (Z.pos mx) * bpow ex).
    { pose proof (bpow_pos ex). assert (0 < IZR (Z.pos mx)) by (apply IZR_lt; lia).
      nra. }
    assert (Hy : 0 < IZR (Z.pos my) * bpow ey).
    { pose proof (bpow_pos ey). assert (0 < IZR (Z.pos my)) by (apply IZR_lt; lia).
      nra. }
    assert (Hm : match Z.compare ex ey with
                 | Lt => IZR (Z.pos mx) * bpow ex < IZR (Z.pos my) * bpow ey
                 | Gt => IZR (Z.pos my) * bpow ey < IZR (Z.pos mx) * bpow ex
                 | Eq => match Pos.compare_cont Eq mx my with
                         | Lt => IZR (Z.pos mx) * bpow ex < IZR (Z.pos my) * bpow ey
                         | Gt => IZR (Z.pos my) * bpow ey < IZR (Z.pos mx) * bpow ex
                         | Eq => IZR (Z.pos mx) * bpow ex = IZR (Z.pos my) * bpow ey
                         end
                 end).
    { destruct (Z.compare_spec ex ey) as [E|E|E].
      - subst ey. change (Pos.compare_cont Eq mx my) with (Pos.compare mx my).
        pose proof (bpow_pos ex).
        destruct (Pos.compare_spec mx my) as [E|E|E].
        + now subst.
        + apply Rmult_lt_compat_r; [assumption|]. apply IZR_lt. lia.
        + apply Rmult_lt_compat_r; [assumption|]. apply IZR_lt. lia.
      - eapply valid_pos_lt; eassumption.
      - eapply valid_pos_lt; eassumption. }
    destruct sx, sy; simpl sgn;
      destruct (Z.compare ex ey); try destruct (Pos.compare_cont Eq mx my);
      cbn [CompOpp]; lra.
Qed.

Lemma SFleb_iff (x y : spec_float) :
  valid_binary x = true -> valid_binary y = true ->
  SFfin x = true -> SFfin y = true ->
  SFleb x y = true <-> SF2R x <= SF2R y.
Proof.
  intros Vx Vy Fx Fy. pose proof (SFcompare_spec x y Vx Vy Fx Fy) as H.
  unfold SFleb. destruct (SFcompare x y) as [[| |]|]; cbn [compare_agrees] in H;
    split; intros; try discriminate; try reflexivity; try lra; contradiction.
Qed.

(** A number between two finite numbers is finite. *)
Lemma SFleb_between (lo x hi : spec_float) :
  SFfin lo = true -> SFfin hi = true ->
  SFleb lo x = true -> SFleb x hi = true -> SFfin x = true.
Proof.
  intros Fl Fh. unfold SFleb.
  destruct lo as [sl|sl| |sl ml el], hi as [sh|sh| |sh mh eh]; try discriminate;
    destruct x as [s|[|]| |s m e]; cbn; try reflexivity; intros; discriminate.
Qed.

Lemma SFabs_value (x : spec_float) : SF2R (SFabs x) = Rabs (SF2R x).
Proof.
  destruct x as [s|s| |s m e]; cbn [SFabs SF2R]; try (now rewrite Rabs_R0).
  rewrite Rabs_sgn. simpl sgn. rewrite Rabs_pos_eq; [ring|].
  pose proof (bpow_pos e). assert (0 < IZR (Z.pos m)) by (apply IZR_lt; lia).
  nra.
Qed.

Lemma SFabs_fin (x : spec_float) : SFfin (SFabs x) = SFfin x.
Proof. now destruct x. Qed.

(** *** The primitive operations *)

Lemma bpow_bound : 1000000000000000000 <= bpow 1000.
Proof.
  apply Rle_trans with (bpow 64); [|apply bpow_le; lia].
  rewrite bpow_IZR by lia.
  change (2 ^ 64)%Z with 18446744073709551616%Z. lra.
Qed.

Lemma u53_value : u53 = / 9007199254740992.
Proof.
  unfold u53. apply Rmult_eq_reg_l with (bpow 53).
  - rewrite <- bpow_add. change (53 + -53)%Z with 0%Z. rewrite bpow_0.
    rewrite bpow_IZR by lia. change (2 ^ 53)%Z with 9007199254740992%Z.
    field.
  - pose proof (bpow_pos 53). lra.
Qed.

Lemma eta_bounds : 0 < eta <= / 1000000000000000000.
Proof.
  split; [apply bpow_pos|].
  apply Rle_trans with (bpow (-64)); [apply bpow_le; lia|].
  assert (bpow 64 * bpow (-64) = 1).
  { rewrite <- bpow_add. apply bpow_0. }
  rewrite bpow_IZR in H by lia. change (2 ^ 64)%Z with 18446744073709551616%Z in H.
  pose proof (bpow_pos (-64)). nra.
Qed.

(** The primitive operations on finite arguments, with the exact result
    bounded by [B]: the result is finite and off by at most
    [u53 * B + eta]. *)
Section Bounds.
Variables (a b : float) (B : R).
Hypothesis Fa : Ffin a = true.
Hypothesis Fb : Ffin b = true.
Hypothesis HB : B <= 1000000000000000.

Lemma round_bound (X err : R) :
  Rabs X <= B -> Rabs err <= u53 * Rabs X + eta ->
  Rabs X < bpow 1000 /\ Rabs err <= u53 * B + eta.
Proof.
  intros HX He. pose proof bpow_bound. split; [lra|].
  assert (0 < u53) by apply bpow_pos. nra.
Qed.

Lemma Fadd_bound :
  Rabs (F2R a + F2R b) <= B ->
  Ffin (a + b) = true
  /\ Rabs (F2R (a + b) - (F2R a + F2R b)) <= u53 * B + eta.
Proof.
  intros HX. unfold Ffin, F2R in *. rewrite add_spec.
  pose proof bpow_bound.
  destruct (SFadd_correct _ _ Fa Fb ltac:(lra)) as (Hf & err & Hv & He).
  split; [exact Hf|]. fold SF64add in Hv. unfold SF64add in *. rewrite Hv.
  replace (SF2R (Prim2SF a) + SF2R (Prim2SF b) + err
           - (SF2R (Prim2SF a) + SF2R (Prim2SF b))) with err by ring.
  now apply (round_bound _ _ HX He).
Qed.

Lemma Fsub_bound :
  Rabs (F2R a - F2R b) <= B ->
  Ffin (a - b) = true
  /\ Rabs (F2R (a - b) - (F2R a - F2R b)) <= u53 * B + eta.
Proof.
  intros HX. unfold Ffin, F2R in *. rewrite sub_spec.
  pose proof bpow_bound.
  destruct (SFsub_correct _ _ Fa Fb ltac:(lra)) as (Hf & err & Hv & He).
  split; [exact Hf|]. unfold SF64sub in *. rewrite Hv.
  replace (SF2R (Prim2SF a) - SF2R (Prim2SF b) + err
           - (SF2R (Prim2SF a) - SF2R (Prim2SF b))) with err by ring.
  now apply (round_bound _ _ HX He).
Qed.

Lemma Fmul_bound :
  Rabs (F2R a * F2R b) <= B ->
  Ffin (a * b) = true
  /\ Rabs (F2R (a * b) - F2R a * F2R b) <= u53 * B + eta.
Proof.
  intros HX. unfold Ffin, F2R in *. rewrite mul_spec.
  pose proof bpow_bound.
  destruct (SFmul_correct _ _ (Prim2SF_valid a) (Prim2SF_valid b) Fa Fb ltac:(lra))
    as (Hf & err & Hv & He).
  split; [exact Hf|]. unfold SF64mul in *. rewrite Hv.
  replace (SF2R (Prim2SF a) * SF2R (Prim2SF b) + err
           - SF2R (Prim2SF a) * SF2R (Prim2SF b)) with err by ring.
  now apply (round_bound _ _ HX He).
Qed.

Lemma Fdiv_bound :
  F2R b <> 0 ->
  Rabs (F2R a / F2R b) <= B ->
  Ffin (a / b) = true
  /\ Rabs (F2R (a / b) - F2R a / F2R b) <= u53 * B + eta.
Proof.
  intros Hb HX. unfold Ffin, F2R in *. rewrite div_spec.
  pose proof bpow_bound.
  destruct (SFdiv_correct _ _ Fa Fb Hb ltac:(lra)) as (Hf & err & Hv & He).
  split; [exact Hf|]. unfold SF64div in *. rewrite Hv.
  replace (SF2R (Prim2SF a) / SF2R (Prim2SF b) + err
           - SF2R (Prim2SF a) / SF2R (Prim2SF b)) with err by ring.
  now apply (round_bound _ _ HX He).
Qed.

Lemma Fleb_iff : (a <=? b)%float = true <-> F2R a <= F2R b.
Proof.
  rewrite leb_spec. apply SFleb_iff; try assumption; apply Prim2SF_valid.
Qed.
End Bounds.

Lemma Fleb_between (lo x hi : float) :
  Ffin lo = true -> Ffin hi = true ->
  (lo <=? x)%float = true -> (x <=? hi)%float = true -> Ffin x = true.
Proof. rewrite !leb_spec. apply SFleb_between. Qed.

Lemma Fabs_value (x : float) : F2R (abs x) = Rabs (F2R x).
Proof. unfold F2R. rewrite abs_spec. apply SFabs_value. Qed.

Lemma Fabs_fin (x : float) : Ffin (abs x) = Ffin x.
Proof. unfold Ffin. rewrite abs_spec. apply SFabs_fin. Qed.

(** *** The constants of the sink branch *)

Lemma F2R_finite (f : float) (s : bool) (m : positive) (e : Z) :
  Prim2SF f = S754_finite s m e -> F2R f = sgn s * (IZR (Z.pos m) * bpow e).
Proof. unfold F2R. now intros ->. Qed.

Lemma bpow_neg (p : positive) : bpow (Z.neg p) = / IZR (2 ^ Z.pos p).
Proof.
  rewrite <- bpow_IZR by lia. apply Rmult_eq_reg_l with (bpow (Z.pos p)).
  - rewrite <- bpow_add. replace (Z.pos p + Z.neg p)%Z with 0%Z by lia.
    rewrite bpow_0. field. pose proof (bpow_pos (Z.pos p)). lra.
  - pose proof (bpow_pos (Z.pos p)). lra.
Qed.

Lemma F2R_1000 : F2R 1000 = 1000.
Proof.
  rewrite (F2R_finite 1000 false 8796093022208000 (-43)) by reflexivity.
  rewrite bpow_neg. change (2 ^ 43)%Z with 8796093022208%Z. simpl sgn. lra.
Qed.

Lemma F2R_m1000 : F2R (-1000) = -1000.
Proof.
  rewrite (F2R_finite (-1000) true 8796093022208000 (-43)) by reflexivity.
  rewrite bpow_neg. change (2 ^ 43)%Z with 8796093022208%Z. simpl sgn. lra.
Qed.

Lemma F2R_0 : F2R 0 = 0.
Proof. reflexivity. Qed.

Lemma F2R_FPS : F2R (float_of_int FPS) = 60.
Proof.
  rewrite (F2R_finite _ false 8444249301319680 (-47)) by reflexivity.
  rewrite bpow_neg. change (2 ^ 47)%Z with 140737488355328%Z. simpl sgn. lra.
Qed.

(** [0.18] is not a binary64 number; the constant is the nearest one. *)
Lemma F2R_SINK_SPEED :
  F2R Bird.SINK_SPEED = 6485183463413514 / 36028797018963968.
Proof.
  rewrite (F2R_finite _ false 6485183463413514 (-55)) by reflexivity.
  rewrite bpow_neg. change (2 ^ 55)%Z with 36028797018963968%Z. simpl sgn. lra.
Qed.

Lemma F2R_tolerance : F2R 1e-9 = 4835703278458517 / 4835703278458516698824704.
Proof.
  rewrite (F2R_finite _ false 4835703278458517 (-82)) by reflexivity.
  rewrite bpow_neg. change (2 ^ 82)%Z with 4835703278458516698824704%Z.
  simpl sgn. lra.
Qed.

Lemma Rabs_le_inv (x y : R) : Rabs x <= y -> - y <= x <= y.
Proof. unfold Rabs. destruct (Rcase_abs x); lra. Qed.

Ltac open_abs :=
  repeat match goal with
         | H : Rabs _ <= _ |- _ => apply Rabs_le_inv in H
         end;
  try apply Rabs_le.

(** *** Sinking in steps *)

(** The displacement [SINK_SPEED * frames_to_msec(d)] against the exact
    product, for at most 2001 frames: three roundings, each of a value
    below 2.1e6. *)
Lemma sink_term_bound (d : float) :
  Ffin d = true -> Rabs (F2R d) <= 2001 ->
  Ffin (Bird.SINK_SPEED * frames_to_msec d) = true
  /\ Rabs (F2R (Bird.SINK_SPEED * frames_to_msec d)%float
           - F2R Bird.SINK_SPEED * (1000 * F2R d / 60)) <= / 100000000000.
Proof.
  intros Fd Hd. unfold frames_to_msec.
  pose proof eta_bounds as Heta. pose proof u53_value as Hu.
  destruct (Fmul_bound 1000 d 2001000 eq_refl Fd ltac:(lra)) as [Fp Hp].
  { rewrite F2R_1000. open_abs. lra. }
  rewrite F2R_1000 in Hp.
  destruct (Fdiv_bound (1000 * d) (float_of_int FPS) 33400 Fp eq_refl ltac:(lra))
    as [Fm Hm].
  { rewrite F2R_FPS. lra. }
  { rewrite F2R_FPS. open_abs. lra. }
  rewrite F2R_FPS in Hm.
  destruct (Fmul_bound Bird.SINK_SPEED (1000 * d / float_of_int FPS) 6100
              eq_refl Fm ltac:(lra)) as [Fs Hs].
  { rewrite F2R_SINK_SPEED. open_abs. lra. }
  split; [exact Fs|].
  rewrite F2R_SINK_SPEED in *. open_abs. lra.
Qed.

Section Sinking.
Variable cos : float -> float.

(** C8 (amended).  For a bird that is not climbing ([msec_to_climb <= 0])
    with [-1000 <= y <= 1000], and [delta_frames] values [d1], [d2] with
    [0 <= d1 <= 1000] and [0 <= d2 <= 1000]: [update(d1)] followed by
    [update(d2)], and the single [update(d1 + d2)], both end with a finite
    [y]; the two values differ by at most 1e-10, and the binary64 test
    [abs(two - one) <= 1e-9] is true.  (Equality does not hold: see
    [sink_steps_last_place].) *)
Theorem sink_steps_within_tolerance (b : Bird.t) (d1 d2 : float) :
  (Bird.msec_to_climb b <=? 0)%float = true ->
  (0 <=? d1)%float = true -> (d1 <=? 1000)%float = true ->
  (0 <=? d2)%float = true -> (d2 <=? 1000)%float = true ->
  (-1000 <=? Bird.y b)%float = true -> (Bird.y b <=? 1000)%float = true ->
  let two := Bird.y (Bird.update cos (Bird.update cos b d1) d2) in
  let one := Bird.y (Bird.update cos b (d1 + d2)) in
  Ffin two = true /\ Ffin one = true
  /\ Rabs (F2R two - F2R one) <= / 10000000000
  /\ within 1e-9 two one = true.
Proof.
  intros Hsink L1 U1 L2 U2 Ly Uy two one. subst two one.
  apply leb_not_ltb in Hsink. unfold within, Bird.update.
  rewrite Hsink. cbn [Bird.msec_to_climb Bird.y]. rewrite Hsink. cbn [Bird.y].
  assert (F1 : Ffin d1 = true)
    by (apply (Fleb_between 0%float d1 1000%float); auto).
  assert (F2 : Ffin d2 = true)
    by (apply (Fleb_between 0%float d2 1000%float); auto).
  assert (Fy : Ffin (Bird.y b) = true)
    by (apply (Fleb_between (-1000)%float (Bird.y b) 1000%float); auto).
  apply (Fleb_iff 0%float d1 eq_refl F1) in L1.
  apply (Fleb_iff d1 1000%float F1 eq_refl) in U1.
  apply (Fleb_iff 0%float d2 eq_refl F2) in L2.
  apply (Fleb_iff d2 1000%float F2 eq_refl) in U2.
  apply (Fleb_iff (-1000)%float (Bird.y b) eq_refl Fy) in Ly.
  apply (Fleb_iff (Bird.y b) 1000%float Fy eq_refl) in Uy.
  rewrite F2R_1000 in *. rewrite F2R_0 in *. rewrite F2R_m1000 in *.
  pose proof eta_bounds as Heta. pose proof u53_value as Hu.
  destruct (sink_term_bound d1 F1) as [Fs1 Hs1]; [open_abs; lra|].
  destruct (sink_term_bound d2 F2) as [Fs2 Hs2]; [open_abs; lra|].
  destruct (Fadd_bound d1 d2 2000 F1 F2 ltac:(lra)) as [F12 H12]; [open_abs; lra|].
  destruct (sink_term_bound (d1 + d2) F12) as [Fs12 Hs12]; [open_abs; lra|].
  set (s1 := (Bird.SINK_SPEED * frames_to_msec d1)%float) in *.
  set (s2 := (Bird.SINK_SPEED * frames_to_msec d2)%float) in *.
  set (s12 := (Bird.SINK_SPEED * frames_to_msec (d1 + d2))%float) in *.
  rewrite F2R_SINK_SPEED in *.
  destruct (Fadd_bound (Bird.y b) s1 4100 Fy Fs1 ltac:(lra)) as [Fy1 Hy1];
    [open_abs; lra|].
  destruct (Fadd_bound (Bird.y b + s1) s2 7200 Fy1 Fs2 ltac:(lra)) as [Fy2 Hy2];
    [open_abs; lra|].
  destruct (Fadd_bound (Bird.y b) s12 7200 Fy Fs12 ltac:(lra)) as [Fo Ho];
    [open_abs; lra|].
  assert (Hdiff : Rabs (F2R (Bird.y b + s1 + s2) - F2R (Bird.y b + s12))
                  <= / 10000000000).
  { open_abs. lra. }
  split; [exact Fy2|]. split; [exact Fo|]. split; [exact Hdiff|].
  destruct (Fsub_bound (Bird.y b + s1 + s2) (Bird.y b + s12) 1 Fy2 Fo ltac:(lra))
    as [Fd Hd]; [lra|].
  apply Fleb_iff; [now rewrite Fabs_fin | reflexivity |].
  rewrite Fabs_value, F2R_tolerance. open_abs. lra.
Qed.
End Sinking.
End Rounding.


(** ** Scoring *)

Section Scoring.
Local Open Scope Z_scope.
Variable bird_x : float.

Lemma update_score_spec (ps : list PipePair.t) (sc : Z) :
  update_score bird_x ps sc = (map (scored_step bird_x) ps, sc + newly_passed bird_x ps).
Proof.
  revert sc; induction ps as [|p ps IH]; intros sc; unfold newly_passed; simpl.
  - f_equal; lia.
  - unfold scored_step at 1.
    destruct (passed_uncounted bird_x p); rewrite IH; unfold newly_passed;
      simpl length; f_equal; lia.
Qed.

Lemma scored_step_settled (p : PipePair.t) :
  passed_uncounted bird_x (scored_step bird_x p) = false.
Proof.
  unfold scored_step.
  destruct (passed_uncounted bird_x p) eqn:E; [|exact E].
  unfold passed_uncounted, count; cbn [PipePair.x PipePair.score_counted].
  apply andb_false_r.
Qed.

Lemma newly_passed_after_pass (ps : list PipePair.t) :
  newly_passed bird_x (map (scored_step bird_x) ps) = 0.
Proof.
  unfold newly_passed.
  induction ps as [|p ps IH]; simpl; [reflexivity|].
  now rewrite scored_step_settled.
Qed.

Lemma scored_step_idem (p : PipePair.t) :
  scored_step bird_x (scored_step bird_x p) = scored_step bird_x p.
Proof.
  unfold scored_step at 1. now rewrite scored_step_settled.
Qed.

Lemma update_score_fixpoint (ps : list PipePair.t) (sc : Z) :
  update_score bird_x (map (scored_step bird_x) ps) sc = (map (scored_step bird_x) ps, sc).
Proof.
  rewrite update_score_spec, newly_passed_after_pass, map_map.
  f_equal; [|lia].
  apply map_ext; intros p; apply scored_step_idem.
Qed.

(** C6.  One scoring pass adds one to the score for each pair whose right
    edge [x + WIDTH] is left of [bird_x] and whose [score_counted] is unset,
    and sets the flag of each of them, leaving the other pairs as they are;
    any number of further passes over the unchanged stream adds nothing. *)
Theorem scoring_exactly_once (ps : list PipePair.t) (sc : Z) (n : nat) :
  let st := update_score bird_x ps sc in
  snd st = sc + newly_passed bird_x ps
  /\ Forall2 (fun p p' =>
                PipePair.x p' = PipePair.x p /\
                if passed_uncounted bird_x p
                then PipePair.score_counted p' = true
                else p' = p)
             ps (fst st)
  /\ score_passes bird_x n st = st.
Proof.
  intros st; subst st. rewrite update_score_spec; cbn [fst snd].
  split; [reflexivity|]. split.
  - induction ps as [|p ps IH]; simpl; constructor; [|exact IH].
    unfold scored_step. destruct (passed_uncounted bird_x p); split; reflexivity.
  - induction n as [|n IH]; [reflexivity|].
    unfold score_passes in *; simpl. rewrite IH; cbn [fst snd].
    apply update_score_fixpoint.
Qed.

End Scoring.

(** A pair that has scrolled past a bird at x = 50 scores once over four
    passes. *)
Example one_pair_scores_once :
  let p := PipePair.mk (-31) false [] 5 7 in
  score_passes 50 4 ([p], 0%Z) = ([count p], 1%Z).
Proof. vm_compute. reflexivity. Qed.

(** ** The event loop *)

(** What the event loop can change: [done], [paused] and the climb timer,
    which is either left alone or reset to [CLIMB_DURATION]. *)
Lemma handle_events_frame (evs : list event) (g : game) :
  same_position (bird g) (bird (handle_events evs g))
  /\ pipes (handle_events evs g) = pipes g
  /\ frame_clock (handle_events evs g) = frame_clock g
  /\ score (handle_events evs g) = score g
  /\ (Bird.msec_to_climb (bird (handle_events evs g))
        = Bird.msec_to_climb (bird g)
      \/ Bird.msec_to_climb (bird (handle_events evs g))
        = Bird.CLIMB_DURATION).
Proof.
  unfold same_position.
  revert g; induction evs as [|e evs IH]; intros g; simpl.
  - auto 6.
  - destruct (is_quit e); [simpl; auto 6|].
    destruct (is_pause e); [|destruct (is_climb e)].
    + apply (IH (toggle_paused g)).
    + destruct (IH (start_climb g)) as ((Hx & Hy) & Hp & Hf & Hs & Hc).
      cbn [start_climb bird pipes frame_clock score Bird.x Bird.y
           Bird.msec_to_climb] in *.
      repeat split; try assumption. right. destruct Hc as [-> | ->]; reflexivity.
    + apply IH.
Qed.

Lemma handle_events_paused (evs : list event) (g : game) :
  forallb (fun e => negb (is_pause e)) evs = true ->
  paused (handle_events evs g) = paused g.
Proof.
  revert g; induction evs as [|e evs IH]; intros g Hev; simpl in *;
    [reflexivity|].
  apply andb_true_iff in Hev as [He Hev].
  destruct (is_quit e); [reflexivity|].
  destruct (is_pause e); [discriminate|].
  destruct (is_climb e); now rewrite IH.
Qed.

Lemma handle_events_no_climb (evs : list event) (g : game) :
  forallb (fun e => negb (is_climb e)) evs = true ->
  Bird.msec_to_climb (bird (handle_events evs g))
  = Bird.msec_to_climb (bird g).
Proof.
  revert g; induction evs as [|e evs IH]; intros g Hev; simpl in *;
    [reflexivity|].
  apply andb_true_iff in Hev as [He Hev].
  destruct (is_quit e); [reflexivity|].
  destruct (is_climb e); [discriminate|].
  destruct (is_pause e); now rewrite IH.
Qed.

(** The event loop never clears [done]. *)
Lemma handle_events_done (evs : list event) (g : game) :
  done g = true -> done (handle_events evs g) = true.
Proof.
  revert g; induction evs as [|e evs IH]; intros g Hd; simpl; [exact Hd|].
  destruct (is_quit e); [reflexivity|].
  destruct (is_pause e); [|destruct (is_climb e)]; apply IH; exact Hd.
Qed.

Lemma handle_events_done_spec (evs : list event) (g : game) :
  done (handle_events evs g) = done g || existsb is_quit evs.
Proof.
  revert g; induction evs as [|e evs IH]; intros g; simpl.
  - now rewrite orb_false_r.
  - destruct (is_quit e); simpl; [now rewrite orb_true_r|].
    destruct (is_pause e); [|destruct (is_climb e)]; now rewrite IH.
Qed.

Lemma climb_timer_before_quit (evs : list event) (g : game) :
  Bird.msec_to_climb (bird (handle_events evs g))
  = if existsb is_climb (before_quit evs) then Bird.CLIMB_DURATION
    else Bird.msec_to_climb (bird g).
Proof.
  revert g; induction evs as [|e evs IH]; intros g; simpl; [reflexivity|].
  destruct (is_quit e) eqn:Hq; [reflexivity|]. cbn [existsb].
  destruct (is_pause e) eqn:Hp.
  - rewrite IH. cbn [toggle_paused bird].
    destruct e as [|[]| |]; try discriminate; reflexivity.
  - destruct (is_climb e); rewrite IH; simpl;
      [now destruct (existsb is_climb (before_quit evs)) | reflexivity].
Qed.

Lemma spawn_paused (inp : frame_input) (g : game) :
  paused g = true -> spawn inp g = g.
Proof. intros Hp. unfold spawn. now rewrite Hp. Qed.

Lemma spawn_pipes (inp : frame_input) (g : game) :
  pipes (spawn inp g) = pipes g
  \/ pipes (spawn inp g) = pipes g ++ [PipePair.init (randint inp)].
Proof.
  unfold spawn. destruct (negb _); [right | left]; reflexivity.
Qed.

Lemma spawn_frame (inp : frame_input) (g : game) :
  bird (spawn inp g) = bird g
  /\ frame_clock (spawn inp g) = frame_clock g
  /\ score (spawn inp g) = score g
  /\ done (spawn inp g) = done g
  /\ paused (spawn inp g) = paused g.
Proof. unfold spawn. destruct (negb _); simpl; auto. Qed.

(** ** The loop *)

Section Loop.
Variable cos : float -> float.
Variable collide_mask : bool -> PipePair.t -> Bird.t -> bool.

Lemma check_collisions_frame (ticks : Z) (g : game) :
  bird (check_collisions collide_mask ticks g) = bird g
  /\ pipes (check_collisions collide_mask ticks g) = pipes g
  /\ frame_clock (check_collisions collide_mask ticks g) = frame_clock g
  /\ score (check_collisions collide_mask ticks g) = score g
  /\ paused (check_collisions collide_mask ticks g) = paused g
  /\ done (check_collisions collide_mask ticks g)
     = done g || collision collide_mask ticks (pipes g) (bird g).
Proof.
  unfold check_collisions.
  destruct (collision collide_mask ticks (pipes g) (bird g)); simpl;
    rewrite ?orb_true_r, ?orb_false_r; auto 6.
Qed.

Lemma advance_fields (g : game) :
  bird (advance cos g) = Bird.update cos (bird g) 1
  /\ pipes (advance cos g)
     = map (scored_step (Bird.x (bird g)))
           (map (fun p => PipePair.update p 1) (prune (pipes g)))
  /\ score (advance cos g)
     = (score g + newly_passed (Bird.x (bird g))
                    (map (fun p => PipePair.update p 1) (prune (pipes g))))%Z
  /\ frame_clock (advance cos g) = (frame_clock g + 1)%Z
  /\ done (advance cos g) = done g
  /\ paused (advance cos g) = paused g.
Proof.
  unfold advance. rewrite update_score_spec, bird_update_x. simpl. auto 6.
Qed.

Lemma main_tick_split (inp : frame_input) (g : game) :
  main_tick cos collide_mask inp g
  = if paused (at_check collide_mask inp g) then at_check collide_mask inp g
    else advance cos (at_check collide_mask inp g).
Proof.
  unfold main_tick, at_check.
  destruct (paused (handle_events (events inp) (spawn inp g))) eqn:Hp.
  - now rewrite Hp.
  - destruct (check_collisions_frame (get_ticks inp)
                (handle_events (events inp) (spawn inp g)))
      as (_ & _ & _ & _ & -> & _).
    now rewrite Hp.
Qed.

Lemma main_loop_done (inputs : list frame_input) (g : game) :
  done g = true -> main_loop cos collide_mask inputs g = g.
Proof. intros Hd. destruct inputs; simpl; [|rewrite Hd]; reflexivity. Qed.

(** C1, as the code has it.  Setting [done] ends the loop, not the
    iteration.  When an iteration of a running game ends with [done] set, no
    later iteration runs and the score reported is the one at the end of
    that iteration.  Within the iteration nothing more is mutated only when
    the game is paused (a quit while paused); otherwise the rest of the
    iteration runs as in any other: the stream is pruned, every pair and the
    bird move by one frame, the scoring pass runs and the frame counter is
    incremented. *)
Theorem over_ends_loop_after_tick
    (inp : frame_input) (inputs : list frame_input) (g : game) :
  done g = false ->
  done (main_tick cos collide_mask inp g) = true ->
  let over := at_check collide_mask inp g in
  let g' := main_tick cos collide_mask inp g in
  done over = true
  /\ main_loop cos collide_mask (inp :: inputs) g = g'
  /\ score (main_loop cos collide_mask (inp :: inputs) g) = score g'
  /\ (paused over = true -> g' = over)
  /\ (paused over = false ->
        bird g' = Bird.update cos (bird over) 1
        /\ map PipePair.x (pipes g')
           = map (fun p => PipePair.x (PipePair.update p 1))
                 (prune (pipes over))
        /\ score g'
           = (score over
              + newly_passed (Bird.x (bird over))
                  (map (fun p => PipePair.update p 1) (prune (pipes over))))%Z
        /\ frame_clock g' = (frame_clock over + 1)%Z).
Proof.
  intros Hrun Hover over g'.
  assert (Hloop : main_loop cos collide_mask (inp :: inputs) g = g').
  { simpl. rewrite Hrun. now apply main_loop_done. }
  rewrite Hloop. subst g'. rewrite main_tick_split in *.
  fold over in Hover |- *.
  destruct (advance_fields over) as (Hb & Hp & Hs & Hf & Hd & _).
  destruct (paused over) eqn:Hpo.
  - split; [exact Hover|]. do 3 (split; [reflexivity|]). discriminate.
  - rewrite Hd in Hover.
    split; [exact Hover|]. do 2 (split; [reflexivity|]).
    split; [discriminate|]. intros _.
    rewrite Hp, !map_map. repeat split; try assumption.
    apply map_ext; intros p. unfold scored_step.
    destruct (passed_uncounted _ _); reflexivity.
Qed.

Lemma paused_tick (inp : frame_input) (g : game) :
  paused g = true -> no_pause_event inp ->
  main_tick cos collide_mask inp g = handle_events (events inp) g
  /\ paused (main_tick cos collide_mask inp g) = true.
Proof.
  intros Hp Hev. unfold main_tick. rewrite (spawn_paused inp g Hp).
  rewrite (handle_events_paused _ g Hev), Hp.
  split; [reflexivity|]. now rewrite (handle_events_paused _ g Hev).
Qed.

(** C2, as the code has it.  While the game is paused and no pause key
    arrives, any number of iterations with any events leave the bird's
    position, the whole stream, the score and the frame counter as they were.
    The climb timer is not frozen: the event loop runs before the pause test,
    so a climb event during the pause resets it to [CLIMB_DURATION].  The
    timer ends at [CLIMB_DURATION] exactly when a climb event gets to the
    bird ([climb_reached]), and is unchanged otherwise. *)
Theorem pause_freezes_all_but_timer (inputs : list frame_input) (g : game) :
  paused g = true ->
  Forall no_pause_event inputs ->
  let g' := main_loop cos collide_mask inputs g in
  paused g' = true
  /\ same_position (bird g) (bird g')
  /\ pipes g' = pipes g
  /\ score g' = score g
  /\ frame_clock g' = frame_clock g
  /\ (Bird.msec_to_climb (bird g') = Bird.msec_to_climb (bird g)
      \/ Bird.msec_to_climb (bird g') = Bird.CLIMB_DURATION)
  /\ (Forall no_climb_event inputs ->
      Bird.msec_to_climb (bird g') = Bird.msec_to_climb (bird g))
  /\ (done g = false ->
      Bird.msec_to_climb (bird g')
      = if climb_reached inputs then Bird.CLIMB_DURATION
        else Bird.msec_to_climb (bird g)).
Proof.
  unfold same_position.
  revert g; induction inputs as [|inp inputs IH]; intros g Hp Hev; simpl.
  - auto 10.
  - destruct (done g) eqn:Hdone; [repeat split; auto; discriminate|].
    inversion Hev as [|? ? Hinp Hrest]; subst.
    destruct (paused_tick inp g Hp Hinp) as [Htick Hp1].
    rewrite Htick in Hp1 |- *.
    destruct (IH _ Hp1 Hrest)
      as (Hp' & (Hx & Hy) & Hps & Hsc & Hfc & Ht & Hnc & Hreach).
    destruct (handle_events_frame (events inp) g)
      as ((Hx1 & Hy1) & Hps1 & Hfc1 & Hsc1 & Ht1).
    split; [exact Hp'|]. split; [split; congruence|].
    do 3 (split; [congruence|]). split; [|split].
    + destruct Ht as [Ht | Ht]; [|now right].
      destruct Ht1 as [Ht1 | Ht1]; [left | right]; congruence.
    + intros Hclimb. inversion Hclimb as [|? ? Hc Hcs]; subst.
      rewrite (Hnc Hcs). now apply handle_events_no_climb.
    + intros _.
      pose proof (handle_events_done_spec (events inp) g) as Hd1.
      rewrite Hdone, orb_false_l in Hd1.
      pose proof (climb_timer_before_quit (events inp) g) as Ht0.
      destruct (existsb is_quit (events inp)); cbn [negb andb].
      * rewrite orb_false_r, (main_loop_done _ _ Hd1). exact Ht0.
      * rewrite (Hreach Hd1), Ht0.
        destruct (existsb is_climb (before_quit (events inp))),
          (climb_reached inputs); reflexivity.
Qed.

(** C3, as the code has it.  In an iteration that is not paused the
    collision test comes first and the advance second: [done] is set from
    the pairs and the bird where the iteration found them (a pair created in
    this iteration at its initial [x]), which is where the previous
    iteration's advance left them; only then are the stream pruned and the
    pairs and the bird moved by one frame. *)
Theorem collision_checked_before_advance (inp : frame_input) (g : game) :
  let g1 := handle_events (events inp) (spawn inp g) in
  paused g1 = false ->
  let g' := main_tick cos collide_mask inp g in
  done g'
    = done g1 || collision collide_mask (get_ticks inp) (pipes g1) (bird g1)
  /\ same_position (bird g) (bird g1)
  /\ pipes g1 = pipes (spawn inp g)
  /\ bird g' = Bird.update cos (bird g1) 1
  /\ map PipePair.x (pipes g')
     = map (fun p => PipePair.x (PipePair.update p 1)) (prune (pipes g1)).
Proof.
  intros g1 Hp g'. subst g'. unfold main_tick. fold g1. rewrite Hp.
  destruct (check_collisions_frame (get_ticks inp) g1)
    as (Hb & Hps & _ & _ & _ & Hd).
  destruct (advance_fields (check_collisions collide_mask (get_ticks inp) g1))
    as (Hb' & Hps' & _ & _ & Hd' & _).
  destruct (handle_events_frame (events inp) (spawn inp g))
    as (Hpos & Hpipes & _).
  destruct (spawn_frame inp g) as (Hsb & _).
  fold g1 in Hpos, Hpipes. rewrite Hsb in Hpos.
  rewrite Hd', Hd, Hb', Hps', Hb, Hps.
  repeat split; try assumption; try apply Hpos.
  rewrite !map_map. apply map_ext; intros p. unfold scored_step.
  destruct (passed_uncounted _ _); reflexivity.
Qed.

(** *** Score and flags only go up *)

Lemma flag_kept_refl (p : PipePair.t) : flag_kept p p.
Proof. unfold flag_kept; auto. Qed.

Lemma flag_kept_trans (p q r : PipePair.t) :
  flag_kept p q -> flag_kept q r -> flag_kept p r.
Proof.
  unfold flag_kept. intros (? & ? & ? & ?) (? & ? & ? & ?).
  repeat split; try congruence; auto.
Qed.

Lemma Forall2_flag_kept_refl (l : list PipePair.t) : Forall2 flag_kept l l.
Proof. induction l; constructor; auto using flag_kept_refl. Qed.

Lemma Forall2_flag_kept_trans (l1 l2 l3 : list PipePair.t) :
  Forall2 flag_kept l1 l2 -> Forall2 flag_kept l2 l3 -> Forall2 flag_kept l1 l3.
Proof.
  intros H12; revert l3; induction H12; intros l3 H23; inversion H23; subst;
    constructor; eauto using flag_kept_trans.
Qed.

Lemma Forall2_skipn {A B} (R : A -> B -> Prop) (k : nat) (l : list A) (l' : list B) :
  Forall2 R l l' -> Forall2 R (skipn k l) (skipn k l').
Proof.
  intros H; revert k; induction H; intros [|k]; simpl; auto.
Qed.

Lemma stream_after_refl (ps : list PipePair.t) : stream_after 0 ps ps.
Proof.
  exists ps, []. simpl.
  split; [apply Forall2_flag_kept_refl | now rewrite app_nil_r].
Qed.

Lemma stream_after_trans (k1 k2 : nat) (ps1 ps2 ps3 : list PipePair.t) :
  stream_after k1 ps1 ps2 -> stream_after k2 ps2 ps3 ->
  stream_after (k1 + k2) ps1 ps3.
Proof.
  intros (kept1 & f1 & H1 & ->) (kept2 & f2 & H2 & ->).
  rewrite skipn_app in H2.
  apply Forall2_app_inv_l in H2 as (a & b & Ha & Hb & ->).
  exists a, (b ++ f2). split.
  - rewrite Nat.add_comm, <- skipn_skipn.
    eapply Forall2_flag_kept_trans; [|exact Ha].
    now apply Forall2_skipn.
  - now rewrite app_assoc.
Qed.

Lemma prune_length (ps : list PipePair.t) :
  (length (prune ps) <= length ps)%nat.
Proof.
  induction ps as [|p ps IH]; simpl; [lia|].
  destruct (negb (PipePair.visible p)); simpl; lia.
Qed.

Lemma prune_is_skipn (ps : list PipePair.t) :
  prune ps = skipn (popped ps) ps.
Proof.
  unfold popped. induction ps as [|p ps IH]; [reflexivity|]. simpl prune.
  destruct (negb (PipePair.visible p)).
  - pose proof (prune_length ps).
    replace (length (p :: ps) - length (prune ps))%nat
      with (S (length ps - length (prune ps))) by (cbn [length]; lia).
    exact IH.
  - now rewrite Nat.sub_diag.
Qed.

Lemma moved_and_scored_kept (bx : float) (l : list PipePair.t) :
  Forall2 flag_kept l
    (map (scored_step bx) (map (fun p => PipePair.update p 1) l)).
Proof.
  induction l as [|p l IH]; simpl; constructor; [|exact IH].
  unfold scored_step, flag_kept.
  destruct (passed_uncounted _ _); simpl; auto.
Qed.

Lemma main_tick_stream (inp : frame_input) (g : game) :
  stream_after (popped_in_tick inp g)
    (pipes g) (pipes (main_tick cos collide_mask inp g)).
Proof.
  unfold main_tick, popped_in_tick.
  set (g1 := handle_events (events inp) (spawn inp g)).
  assert (Hps : exists fresh, pipes g1 = pipes g ++ fresh).
  { unfold g1.
    destruct (handle_events_frame (events inp) (spawn inp g)) as (_ & -> & _).
    destruct (spawn_pipes inp g) as [-> | ->];
      [exists []; now rewrite app_nil_r | eexists; reflexivity]. }
  destruct Hps as (fresh & Hps).
  destruct (paused g1).
  - exists (pipes g), fresh. split; [apply Forall2_flag_kept_refl | exact Hps].
  - destruct (advance_fields (check_collisions collide_mask (get_ticks inp) g1))
      as (_ & -> & _).
    destruct (check_collisions_frame (get_ticks inp) g1) as (-> & -> & _).
    rewrite prune_is_skipn. generalize (popped (pipes g1)); intros k.
    rewrite Hps, skipn_app, !map_app.
    eexists _, _. split; [apply moved_and_scored_kept | reflexivity].
Qed.

Lemma newly_passed_nonneg (bx : float) (l : list PipePair.t) :
  (0 <= newly_passed bx l)%Z.
Proof. unfold newly_passed. lia. Qed.

Lemma main_tick_score (inp : frame_input) (g : game) :
  (score g <= score (main_tick cos collide_mask inp g))%Z.
Proof.
  unfold main_tick.
  set (g1 := handle_events (events inp) (spawn inp g)).
  assert (Hs : score g1 = score g).
  { unfold g1.
    destruct (handle_events_frame (events inp) (spawn inp g))
      as (_ & _ & _ & -> & _).
    apply spawn_frame. }
  destruct (paused g1); [lia|].
  destruct (advance_fields (check_collisions collide_mask (get_ticks inp) g1))
    as (_ & _ & -> & _).
  destruct (check_collisions_frame (get_ticks inp) g1)
    as (-> & -> & _ & -> & _).
  rewrite Hs. pose proof (newly_passed_nonneg (Bird.x (bird g1))
    (map (fun p => PipePair.update p 1) (prune (pipes g1)))). lia.
Qed.

(** C10.  Over any run of the loop the score never goes down; and with [k]
    the number of pairs the run has popped off the head of the stream, the
    pairs of the starting stream from the [k]-th on are still there at the
    end, in place at its head, each the pair it was and with
    [score_counted] still set if it was set. *)
Theorem score_and_flags_monotone (inputs : list frame_input) (g : game) :
  (score g <= score (main_loop cos collide_mask inputs g))%Z
  /\ stream_after (popped_in_run cos collide_mask inputs g)
       (pipes g) (pipes (main_loop cos collide_mask inputs g)).
Proof.
  revert g; induction inputs as [|inp inputs IH]; intros g; simpl.
  - split; [lia | apply stream_after_refl].
  - destruct (done g); [split; [lia | apply stream_after_refl]|].
    destruct (IH (main_tick cos collide_mask inp g)) as [Hs He].
    pose proof (main_tick_score inp g).
    split; [lia|].
    eapply stream_after_trans; [apply main_tick_stream | exact He].
Qed.

End Loop.

(** ** Pruning *)




(** ** Concrete runs *)

Example first_tick_with_quit :
  main_tick cos_series no_overlap quit_input start
  = mk_game (Bird.mk 50 230.00088841576496 (-14.666666666666668))
            [pair_at 564 3] 1 0 true false.
Proof. vm_compute. reflexivity. Qed.

Example tick_of_sinking_low :
  main_tick cos_series no_overlap idle_input sinking_low
  = mk_game (Bird.mk 50 481 (-16.7)) [pair_at 309 3] 86 0 false false.
Proof. vm_compute. reflexivity. Qed.

Example tick_after_sinking_low :
  done (main_tick cos_series no_overlap idle_input
          (main_tick cos_series no_overlap idle_input sinking_low)) = true.
Proof. vm_compute. reflexivity. Qed.

Example tick_of_about_to_score :
  main_tick cos_series no_overlap idle_input about_to_score
  = mk_game (Bird.mk 50 203 (-16.7))
            [count (pair_at (-33) 3); pair_at 507 6] 200 1 false false.
Proof. vm_compute. reflexivity. Qed.

Example two_ticks_of_about_to_score :
  score (main_loop cos_series no_overlap [idle_input; idle_input]
           about_to_score) = 1%Z
  /\ popped_in_run cos_series no_overlap [idle_input; idle_input]
       about_to_score = 0%nat.
Proof. split; vm_compute; reflexivity. Qed.

Lemma bird_update_physics_witness :
  ((0 <? Bird.msec_to_climb (bird start))%float = true
   /\ Bird.msec_to_climb (Bird.update cos_series (bird start) 1)
      = (2 - frames_to_msec 1)%float)
  /\ ((Bird.msec_to_climb (bird sinking_low) <=? 0)%float = true
      /\ Bird.y (Bird.update cos_series (bird sinking_low) 1)
         = (478 + Bird.SINK_SPEED * frames_to_msec 1)%float).
Proof.
  split; (split; [reflexivity|]).
  - apply (bird_update_physics cos_series (bird start) 1). reflexivity.
  - apply (bird_update_physics cos_series (bird sinking_low) 1). reflexivity.
Defined.

(** Sinking in two steps against sinking in one, on binary64: the two
    results can differ in the last place. *)
Example sink_steps_last_place :
  Bird.y (Bird.update cos_series
            (Bird.update cos_series (Bird.mk 50 240 (-16.7)) 0.1) 0.1)
    = 240.60000000000002%float
  /\ Bird.y (Bird.update cos_series (Bird.mk 50 240 (-16.7)) (0.1 + 0.1))
    = 240.59999999999999%float.
Proof. split; vm_compute; reflexivity. Qed.

Lemma sink_steps_within_tolerance_witness :
  ((Bird.msec_to_climb (Bird.mk 50 240 (-16.7)) <=? 0)%float = true
   /\ ((0 <=? 0.1)%float = true /\ (0.1 <=? 1000)%float = true)
   /\ ((-1000 <=? 240)%float = true /\ (240 <=? 1000)%float = true))
  /\ Ffin (Bird.y (Bird.update cos_series
                     (Bird.update cos_series (Bird.mk 50 240 (-16.7)) 0.1)
                     0.1)) = true
  /\ Ffin (Bird.y (Bird.update cos_series (Bird.mk 50 240 (-16.7))
                     (0.1 + 0.1))) = true
  /\ (Rabs (F2R (Bird.y (Bird.update cos_series
                           (Bird.update cos_series (Bird.mk 50 240 (-16.7)) 0.1)
                           0.1))
            - F2R (Bird.y (Bird.update cos_series (Bird.mk 50 240 (-16.7))
                             (0.1 + 0.1))))
      <= / 10000000000)%R
  /\ within 1e-9
       (Bird.y (Bird.update cos_series
                  (Bird.update cos_series (Bird.mk 50 240 (-16.7)) 0.1) 0.1))
       (Bird.y (Bird.update cos_series (Bird.mk 50 240 (-16.7)) (0.1 + 0.1)))
     = true.
Proof.
  split; [repeat split; reflexivity|].
  apply (sink_steps_within_tolerance cos_series (Bird.mk 50 240 (-16.7))
           0.1 0.1); reflexivity.
Defined.

(** Near the top of the binary64 range the single step overflows where the
    two steps do not: the two results are a finite number and infinity, and
    no finite tolerance covers the difference. *)
Lemma sink_steps_overflow_beyond_tolerance :
  ((Bird.msec_to_climb (Bird.mk 50 240 (-16.7)) <=? 0)%float = true
   /\ (0 <=? 1.2e305)%float = true)
  /\ Bird.y (Bird.update cos_series
               (Bird.update cos_series (Bird.mk 50 240 (-16.7)) 1.2e305)
               1.2e305)
     = 7.1999999999999996e+305%float
  /\ Bird.y (Bird.update cos_series (Bird.mk 50 240 (-16.7))
               (1.2e305 + 1.2e305))
     = infinity
  /\ ~ (exists tol : float,
          (tol <? infinity)%float = true
          /\ within tol
               (Bird.y (Bird.update cos_series
                          (Bird.update cos_series (Bird.mk 50 240 (-16.7))
                             1.2e305) 1.2e305))
               (Bird.y (Bird.update cos_series (Bird.mk 50 240 (-16.7))
                          (1.2e305 + 1.2e305)))
             = true).
Proof.
  split; [split; reflexivity|].
  split; [vm_compute; reflexivity|]. split; [vm_compute; reflexivity|].
  intros [tol [Hfinite Hclose]].
  assert (E : (infinity <=? tol)%float = true) by exact Hclose.
  apply leb_not_ltb in E. congruence.
Qed.

(** The runs below do not hinge on the values chosen for the two
    parameters: whatever [math.cos] and [collide_mask] are, the first
    iteration with QUIT counts its frame and moves the new pair, a click
    during the pause resets the timer, and the iteration of [sinking_low]
    ends out of bounds with [done] equal to the mask test at the positions
    the iteration started from. *)
Remark quit_tick_any_platform
    (cos : float -> float)
    (collide_mask : bool -> PipePair.t -> Bird.t -> bool) :
  done (main_tick cos collide_mask quit_input start) = true
  /\ frame_clock (main_tick cos collide_mask quit_input start) = 1%Z
  /\ map PipePair.x (pipes (at_check collide_mask quit_input start))
     = [567%float]
  /\ map PipePair.x (pipes (main_tick cos collide_mask quit_input start))
     = [564%float].
Proof.
  destruct (collide_mask false (PipePair.init 3) (bird start)) eqn:E;
    vm_compute in E; vm_compute; rewrite E; repeat split.
Qed.

Remark paused_click_any_platform
    (cos : float -> float)
    (collide_mask : bool -> PipePair.t -> Bird.t -> bool) :
  main_loop cos collide_mask [climb_input] paused_game
  = mk_game (Bird.mk 50 300 Bird.CLIMB_DURATION) [pair_at 420 3]
            49 0 false true.
Proof. vm_compute. reflexivity. Qed.

Remark sinking_low_any_platform
    (cos : float -> float)
    (collide_mask : bool -> PipePair.t -> Bird.t -> bool) :
  out_of_bounds
    (bird (main_tick cos collide_mask idle_input sinking_low)) = true
  /\ done (main_tick cos collide_mask idle_input sinking_low)
     = collide_mask false (pair_at 312 3) (bird sinking_low).
Proof.
  destruct (collide_mask false (pair_at 312 3) (bird sinking_low)) eqn:E;
    vm_compute in E; vm_compute; rewrite E; repeat split.
Qed.

(** C1, as stated, fails on the first iteration of a game when it receives
    QUIT: [done] is set in the event loop with the frame counter at 0 and
    the new pair at x = 567, and the iteration goes on to move the pair to
    564, move the bird and count the frame. *)
Lemma quit_tick_keeps_simulating :
  done start = false
  /\ done (at_check no_overlap quit_input start) = true
  /\ frame_clock (at_check no_overlap quit_input start) = 0%Z
  /\ frame_clock (main_tick cos_series no_overlap quit_input start) = 1%Z
  /\ ~ same_simulation (at_check no_overlap quit_input start)
                       (main_tick cos_series no_overlap quit_input start).
Proof.
  repeat split; try (vm_compute; reflexivity).
  intros (_ & _ & _ & _ & Hf). vm_compute in Hf. discriminate.
Qed.

Lemma over_ends_loop_after_tick_witness :
  done start = false
  /\ done (main_tick cos_series no_overlap quit_input start) = true
  /\ main_loop cos_series no_overlap [quit_input; idle_input] start
     = main_tick cos_series no_overlap quit_input start.
Proof.
  split; [reflexivity|]. split; [vm_compute; reflexivity|].
  apply (over_ends_loop_after_tick cos_series no_overlap quit_input
           [idle_input] start); vm_compute; reflexivity.
Defined.

(** C2, as stated, fails for a click during the pause: the iteration leaves
    everything else alone but sets the climb timer, -16.7 before, to 333.3. *)
Lemma climb_event_during_pause_resets_timer :
  paused paused_game = true
  /\ Forall no_pause_event [climb_input]
  /\ paused (main_loop cos_series no_overlap [climb_input] paused_game) = true
  /\ Bird.msec_to_climb
       (bird (main_loop cos_series no_overlap [climb_input] paused_game))
     = Bird.CLIMB_DURATION
  /\ ~ same_simulation paused_game
         (main_loop cos_series no_overlap [climb_input] paused_game).
Proof.
  split; [reflexivity|]. split; [repeat constructor|].
  split; [reflexivity|]. split; [reflexivity|].
  intros (_ & Ht & _).
  apply (f_equal (fun v => (v <? 0)%float)) in Ht.
  vm_compute in Ht. discriminate.
Qed.

Lemma pause_freezes_all_but_timer_witness :
  paused paused_game = true
  /\ Forall no_pause_event [idle_input; climb_input; quit_input; climb_input]
  /\ pipes (main_loop cos_series no_overlap
              [idle_input; climb_input; quit_input; climb_input] paused_game)
     = pipes paused_game
  /\ Bird.msec_to_climb
       (bird (main_loop cos_series no_overlap
                [idle_input; climb_input; quit_input; climb_input]
                paused_game))
     = Bird.CLIMB_DURATION.
Proof.
  split; [reflexivity|]. split; [repeat constructor|].
  pose proof (pause_freezes_all_but_timer cos_series no_overlap
                [idle_input; climb_input; quit_input; climb_input]
                paused_game eq_refl
                ltac:(repeat constructor)) as H.
  cbv zeta in H. destruct H as (_ & _ & Hpipes & _ & _ & _ & _ & Htimer).
  split; [exact Hpipes | exact (Htimer eq_refl)].
Defined.

(** C3, as stated, fails on [sinking_low]: the bird enters the iteration at
    y = 478, inside the bounds, and leaves it at y = 481, outside; a test on
    the positions after the advance would set [done], the code's test has
    already run and leaves it unset until the next iteration. *)
Lemma collision_test_misses_this_ticks_advance :
  paused (handle_events (events idle_input) (spawn idle_input sinking_low))
    = false
  /\ out_of_bounds (bird sinking_low) = false
  /\ collision no_overlap (get_ticks idle_input)
       (pipes (main_tick cos_series no_overlap idle_input sinking_low))
       (bird (main_tick cos_series no_overlap idle_input sinking_low)) = true
  /\ done (main_tick cos_series no_overlap idle_input sinking_low) = false.
Proof. repeat split; vm_compute; reflexivity. Qed.

Lemma collision_checked_before_advance_witness :
  paused (handle_events (events idle_input) (spawn idle_input sinking_low))
    = false
  /\ done (main_tick cos_series no_overlap idle_input sinking_low)
     = done (handle_events (events idle_input) (spawn idle_input sinking_low))
       || collision no_overlap (get_ticks idle_input)
            (pipes (handle_events (events idle_input)
                      (spawn idle_input sinking_low)))
            (bird (handle_events (events idle_input)
                     (spawn idle_input sinking_low))).
Proof.
  split; [reflexivity|].
  apply (collision_checked_before_advance cos_series no_overlap
           idle_input sinking_low). reflexivity.
Defined.



(** * Further properties of the code *)

(** ** The picture of a pair *)

Section Picture.
Local Open Scope Z_scope.
Import PipePair.

Lemma In_range (lo hi i : Z) : In i (range lo hi) <-> lo <= i < hi.
Proof.
  unfold range. rewrite in_map_iff. split.
  - intros (n & <- & Hn). apply in_seq in Hn. lia.
  - intros Hi. exists (Z.to_nat (i - lo)). split; [lia|].
    apply in_seq. lia.
Qed.

Lemma distinct_NoDup (l : list Z) : distinct l = true -> NoDup l.
Proof.
  induction l as [|a l IH]; simpl; [constructor|].
  intros H. apply andb_true_iff in H as [Ha Hl].
  constructor; [|auto]. intros Hin.
  apply negb_true_iff in Ha.
  assert (existsb (Z.eqb a) l = true); [|congruence].
  apply existsb_exists. exists a. split; [exact Hin | apply Z.eqb_refl].
Qed.

Lemma picture_checks_pass :
  forallb picture_checks (range 1 (total_pipe_body_pieces + 1)) = true.
Proof. vm_compute. reflexivity. Qed.

(** X1.  For every draw [randint] can return, the picture of a pair is a
    tiling: every piece sits on one of the sixteen rows of [PIECE_HEIGHT]
    pixels of the window, no two pieces sit on the same row, and a row holds
    a piece exactly when it is outside the gap. *)
Theorem pipe_pieces_tile_window (draw : Z) :
  1 <= draw <= total_pipe_body_pieces ->
  let p := init draw in
  (forall k py, In (k, py) (image p) ->
     exists s, 0 <= s < 16 /\ py = s * PIECE_HEIGHT)
  /\ NoDup (map snd (image p))
  /\ (forall s, 0 <= s < 16 ->
        drawn_at p (s * PIECE_HEIGHT) = negb (in_gap p (s * PIECE_HEIGHT))).
Proof.
  intros Hdraw p. subst p.
  pose proof picture_checks_pass as H.
  rewrite forallb_forall in H.
  assert (Hd : In draw (range 1 (total_pipe_body_pieces + 1)))
    by (apply In_range; lia).
  specialize (H draw Hd).
  unfold picture_checks in H.
  apply andb_true_iff in H as [H Hrows].
  apply andb_true_iff in H as [Hgrid Hdist].
  split; [|split].
  - intros k py Hin. rewrite forallb_forall in Hgrid.
    specialize (Hgrid _ Hin). apply existsb_exists in Hgrid as (s & Hs & Heq).
    apply In_range in Hs. apply Z.eqb_eq in Heq. exists s. auto.
  - now apply distinct_NoDup.
  - intros s Hs. rewrite forallb_forall in Hrows.
    specialize (Hrows s (proj2 (In_range _ _ _) Hs)).
    now apply Bool.eqb_prop in Hrows.
Qed.

Lemma filter_ends_of_body (f : Z -> Z) (l : list Z) :
  filter (fun b => negb (is_body b)) (map (fun i => (pipe_body_img, f i)) l)
  = [].
Proof. induction l as [|i l IH]; simpl; [reflexivity | exact IH]. Qed.

(** X2.  Whatever the draw, a picture has exactly two end pieces, and they
    are the two pieces that border the gap: the bottom pipe's end piece has
    its top edge at [WIN_HEIGHT - bottom_height_px], the top pipe's end
    piece has its bottom edge at [top_height_px]. *)
Theorem end_pieces_border_gap (draw : Z) :
  let p := init draw in
  filter (fun b => negb (is_body b)) (image p)
  = [(pipe_end_img, WIN_HEIGHT - bottom_height_px p);
     (pipe_end_img, top_height_px p - PIECE_HEIGHT)].
Proof.
  intros p. subst p. unfold init, top_height_px, bottom_height_px.
  cbn [image top_pieces bottom_pieces].
  rewrite !filter_app, !filter_ends_of_body. cbn [filter is_body fst negb app].
  change PIECE_HEIGHT with 32.
  f_equal; [f_equal; lia | f_equal; f_equal; lia].
Qed.

(** X3.  For every draw [randint] can return, the gap lies inside the
    window with a pipe on either side: the top pipe is between one and ten
    pieces high, the bottom pipe between two and eleven, and the gap between
    them is four times the bird's height. *)
Theorem gap_inside_window (draw : Z) :
  1 <= draw <= total_pipe_body_pieces ->
  let p := init draw in
  PIECE_HEIGHT <= top_height_px p <= 10 * PIECE_HEIGHT
  /\ 2 * PIECE_HEIGHT <= bottom_height_px p <= 11 * PIECE_HEIGHT
  /\ top_height_px p + 4 * Bird.HEIGHT + bottom_height_px p = WIN_HEIGHT.
Proof.
  intros Hdraw p. subst p. unfold top_height_px, bottom_height_px.
  cbn [init top_pieces bottom_pieces].
  rewrite total_pipe_body_pieces_value in *.
  change PIECE_HEIGHT with 32. change Bird.HEIGHT with 32.
  change WIN_HEIGHT with 512. lia.
Qed.

End Picture.

Lemma pipe_pieces_tile_window_witness :
  (1 <= 7 <= PipePair.total_pipe_body_pieces)%Z
  /\ NoDup (map snd (PipePair.image (PipePair.init 7))).
Proof.
  split; [vm_compute; split; discriminate|].
  apply (pipe_pieces_tile_window 7). vm_compute; split; discriminate.
Defined.

Lemma gap_inside_window_witness :
  (1 <= 10 <= PipePair.total_pipe_body_pieces)%Z
  /\ (PipePair.PIECE_HEIGHT <= PipePair.top_height_px (PipePair.init 10)
      <= 10 * PipePair.PIECE_HEIGHT)%Z.
Proof.
  split; [vm_compute; split; discriminate|].
  apply (gap_inside_window 10). vm_compute; split; discriminate.
Defined.

(** ** The pruning loop *)

Lemma prune_split (ps : list PipePair.t) :
  ps = firstn (popped ps) ps ++ prune ps.
Proof. rewrite prune_is_skipn. symmetry. apply firstn_skipn. Qed.

Lemma popped_hidden (ps : list PipePair.t) :
  Forall (fun p => PipePair.visible p = false) (firstn (popped ps) ps).
Proof.
  unfold popped. induction ps as [|p ps IH]; [constructor|]. simpl prune.
  destruct (PipePair.visible p) eqn:Hv; simpl negb; cbv iota.
  - rewrite Nat.sub_diag. constructor.
  - pose proof (prune_length ps).
    replace (length (p :: ps) - length (prune ps))%nat
      with (S (length ps - length (prune ps))) by (cbn [length]; lia).
    simpl. constructor; assumption.
Qed.

Lemma prune_head_visible (ps : list PipePair.t) :
  match prune ps with
  | [] => True
  | p :: _ => PipePair.visible p = true
  end.
Proof.
  induction ps as [|p ps IH]; simpl; [exact I|].
  destruct (PipePair.visible p) eqn:Hv; simpl; [exact Hv | exact IH].
Qed.

(** X4.  On any stream, ordered or not, the pruning loop pops a run of
    pairs from the head, all of them not visible, and stops at the first
    visible pair or at the end of the stream; pruning again pops nothing
    more. *)
Theorem prune_stops_at_first_visible (ps : list PipePair.t) :
  ps = firstn (popped ps) ps ++ prune ps
  /\ Forall (fun p => PipePair.visible p = false) (firstn (popped ps) ps)
  /\ match prune ps with
     | [] => True
     | p :: _ => PipePair.visible p = true
     end
  /\ prune (prune ps) = prune ps.
Proof.
  split; [apply prune_split|]. split; [apply popped_hidden|].
  split; [apply prune_head_visible|].
  pose proof (prune_head_visible ps) as H.
  destruct (prune ps) as [|p rest]; [reflexivity|].
  simpl. now rewrite H.
Qed.

Lemma prune_keeps_visible_tail (ps : list PipePair.t) (q : PipePair.t) :
  PipePair.visible q = true -> prune (ps ++ [q]) = prune ps ++ [q].
Proof.
  intros Hq. induction ps as [|p ps IH]; simpl.
  - now rewrite Hq.
  - destruct (PipePair.visible p); simpl; [reflexivity | exact IH].
Qed.

(** ** The event loop, event by event *)

(** X5.  In a game that is not over, the event loop sets [done] exactly
    when one of the events is a quit: QUIT, or the release of ESCAPE. *)
Theorem done_iff_quit_event (evs : list event) (g : game) :
  done g = false ->
  (done (handle_events evs g) = true
   <-> exists e, In e evs /\ (e = QUIT \/ e = KEYUP K_ESCAPE)).
Proof.
  intros Hg. rewrite handle_events_done_spec, Hg, orb_false_l, existsb_exists.
  split; intros (e & Hin & He); exists e; (split; [exact Hin|]).
  - destruct e as [|[]| |]; try discriminate; auto.
  - destruct He as [-> | ->]; reflexivity.
Qed.

(** X6.  The events behind a quit are never looked at: the event loop ends
    in the same state whatever follows the quit. *)
Theorem events_after_quit_ignored
    (e : event) (before after : list event) (g : game) :
  is_quit e = true ->
  handle_events (before ++ e :: after) g = handle_events (before ++ [e]) g.
Proof.
  intros He. revert g; induction before as [|b before IH]; intros g; simpl.
  - now rewrite He.
  - destruct (is_quit b); [reflexivity|].
    destruct (is_pause b); [|destruct (is_climb b)]; apply IH.
Qed.

Lemma odd_S (n : nat) : Nat.odd (S n) = negb (Nat.odd n).
Proof. now rewrite Nat.odd_succ, <- Nat.negb_odd. Qed.

(** X7.  The events up to the first quit leave the game paused or running
    according to the parity of the pause keys (PAUSE or P released) among
    them: an even number leaves [paused] as it was, an odd number flips
    it. *)
Theorem pause_follows_parity (evs : list event) (g : game) :
  paused (handle_events evs g)
  = xorb (paused g) (Nat.odd (toggles (before_quit evs))).
Proof.
  unfold toggles.
  revert g; induction evs as [|e evs IH]; intros g; simpl.
  - now rewrite xorb_false_r.
  - destruct (is_quit e); [simpl; now rewrite xorb_false_r|].
    cbn [filter]. destruct (is_pause e).
    + rewrite IH. cbn [toggle_paused paused length].
      rewrite odd_S. now destruct (paused g), (Nat.odd _).
    + destruct (is_climb e); now rewrite IH.
Qed.

Lemma climb_timer_after_events (evs : list event) (g : game) :
  quit_free evs ->
  Bird.msec_to_climb (bird (handle_events evs g))
  = if existsb is_climb evs then Bird.CLIMB_DURATION
    else Bird.msec_to_climb (bird g).
Proof.
  unfold quit_free.
  revert g; induction evs as [|e evs IH]; intros g Hq; simpl in *;
    [reflexivity|].
  apply andb_true_iff in Hq as [He Hq]. apply negb_true_iff in He.
  rewrite He. destruct (is_pause e) eqn:Hp.
  - rewrite (IH _ Hq). cbn [toggle_paused bird].
    destruct e as [|[]| |]; try discriminate; reflexivity.
  - destruct (is_climb e); rewrite (IH _ Hq); simpl;
      [now destruct (existsb is_climb evs) | reflexivity].
Qed.

(** X8.  The events up to the first quit leave the climb timer at
    [CLIMB_DURATION] if one of them is a climb (a mouse button, UP, RETURN
    or SPACE released), whatever the timer was and however many there are,
    and leave it alone otherwise; a climb behind a quit does nothing. *)
Theorem climb_resets_timer (evs : list event) (g : game) :
  Bird.msec_to_climb (bird (handle_events evs g))
  = if existsb is_climb (before_quit evs) then Bird.CLIMB_DURATION
    else Bird.msec_to_climb (bird g).
Proof.
  revert g; induction evs as [|e evs IH]; intros g; simpl; [reflexivity|].
  destruct (is_quit e) eqn:Hq; [reflexivity|]. cbn [existsb].
  destruct (is_pause e) eqn:Hp.
  - rewrite IH. cbn [toggle_paused bird].
    destruct e as [|[]| |]; try discriminate; reflexivity.
  - destruct (is_climb e); rewrite IH; simpl;
      [now destruct (existsb is_climb (before_quit evs)) | reflexivity].
Qed.

(** X9.  Events of any other kind have no effect: dropping them from the
    list changes nothing in what the event loop does. *)
Theorem unrecognised_events_ignored (evs : list event) (g : game) :
  handle_events (filter recognised evs) g = handle_events evs g.
Proof.
  unfold recognised.
  revert g; induction evs as [|e evs IH]; intros g; simpl; [reflexivity|].
  destruct (is_quit e) eqn:Hq; simpl; [now rewrite Hq|].
  destruct (is_pause e) eqn:Hp; simpl; [now rewrite Hq, Hp, IH|].
  destruct (is_climb e) eqn:Hc; simpl; [now rewrite Hq, Hp, Hc, IH|].
  apply IH.
Qed.

Lemma done_iff_quit_event_witness :
  done paused_game = false
  /\ (done (handle_events [MOUSEBUTTONUP; KEYUP K_ESCAPE] paused_game) = true
      <-> exists e, In e [MOUSEBUTTONUP; KEYUP K_ESCAPE]
                    /\ (e = QUIT \/ e = KEYUP K_ESCAPE)).
Proof.
  split; [reflexivity|].
  apply (done_iff_quit_event [MOUSEBUTTONUP; KEYUP K_ESCAPE] paused_game).
  reflexivity.
Defined.

Lemma events_after_quit_ignored_witness :
  is_quit QUIT = true
  /\ handle_events ([KEYUP K_p] ++ QUIT :: [KEYUP K_p; MOUSEBUTTONUP]) start
     = handle_events ([KEYUP K_p] ++ [QUIT]) start.
Proof.
  split; [reflexivity|].
  apply (events_after_quit_ignored QUIT [KEYUP K_p]
           [KEYUP K_p; MOUSEBUTTONUP] start). reflexivity.
Defined.

(** ** The loop, iteration by iteration *)

Lemma init_visible (draw : Z) : PipePair.visible (PipePair.init draw) = true.
Proof. reflexivity. Qed.

Lemma counted_app (ps qs : list PipePair.t) :
  counted (ps ++ qs) = (counted ps + counted qs)%Z.
Proof. unfold counted. rewrite filter_app, length_app. lia. Qed.

Lemma counted_nonneg (ps : list PipePair.t) : (0 <= counted ps)%Z.
Proof. unfold counted. lia. Qed.

Lemma counted_cons (p : PipePair.t) (ps : list PipePair.t) :
  counted (p :: ps)
  = ((if PipePair.score_counted p then 1 else 0) + counted ps)%Z.
Proof.
  unfold counted. cbn [filter].
  destruct (PipePair.score_counted p); cbn [length]; lia.
Qed.

Lemma newly_passed_cons (bx : float) (p : PipePair.t) (ps : list PipePair.t) :
  newly_passed bx (p :: ps)
  = ((if passed_uncounted bx p then 1 else 0) + newly_passed bx ps)%Z.
Proof.
  unfold newly_passed. cbn [filter].
  destruct (passed_uncounted bx p); cbn [length]; lia.
Qed.

Lemma counted_moved (ps : list PipePair.t) :
  counted (map (fun p => PipePair.update p 1) ps) = counted ps.
Proof.
  induction ps as [|p ps IH]; [reflexivity|].
  cbn [map]. rewrite !counted_cons, IH. reflexivity.
Qed.

Lemma counted_scored (bx : float) (ps : list PipePair.t) :
  counted (map (scored_step bx) ps) = (counted ps + newly_passed bx ps)%Z.
Proof.
  induction ps as [|p ps IH]; [reflexivity|].
  cbn [map]. rewrite !counted_cons, newly_passed_cons, IH.
  unfold scored_step.
  destruct (passed_uncounted bx p) eqn:Hpu; [|lia].
  unfold passed_uncounted in Hpu. apply andb_true_iff in Hpu as [_ Hc].
  apply negb_true_iff in Hc. rewrite Hc. cbn [count PipePair.score_counted].
  lia.
Qed.

Lemma spawn_due_spec (inp : frame_input) (g : game) :
  pipes (spawn inp g)
  = pipes g ++ (if spawn_due g then [PipePair.init (randint inp)] else []).
Proof.
  unfold spawn, spawn_due, off_interval.
  change (FPS * PipePair.ADD_INTERVAL / 1000)%Z with 180%Z.
  destruct (paused g); simpl; [now rewrite app_nil_r|].
  destruct (frame_clock g mod 180 =? 0)%Z; simpl;
    [reflexivity | now rewrite app_nil_r].
Qed.

Section Iterations.
Variable cos : float -> float.
Variable collide_mask : bool -> PipePair.t -> Bird.t -> bool.

(** What an iteration that is not paused leaves behind, field by field, in
    terms of the state [g1] after the event loop. *)
Lemma unpaused_tick_fields (inp : frame_input) (g : game) :
  let g1 := handle_events (events inp) (spawn inp g) in
  paused g1 = false ->
  let g' := main_tick cos collide_mask inp g in
  bird g' = Bird.update cos (bird g1) 1
  /\ pipes g'
     = map (scored_step (Bird.x (bird g1)))
           (map (fun p => PipePair.update p 1) (prune (pipes g1)))
  /\ score g'
     = (score g1 + newly_passed (Bird.x (bird g1))
                     (map (fun p => PipePair.update p 1) (prune (pipes g1))))%Z
  /\ frame_clock g' = (frame_clock g1 + 1)%Z.
Proof.
  intros g1 Hp g'. subst g'. unfold main_tick. fold g1. rewrite Hp.
  destruct (check_collisions_frame collide_mask (get_ticks inp) g1)
    as (Hb & Hps & Hf & Hs & _).
  destruct (advance_fields cos
              (check_collisions collide_mask (get_ticks inp) g1))
    as (-> & -> & -> & -> & _).
  rewrite Hb, Hps, Hf, Hs. auto.
Qed.

Lemma after_events_fields (inp : frame_input) (g : game) :
  let g1 := handle_events (events inp) (spawn inp g) in
  same_position (bird g) (bird g1)
  /\ pipes g1 = pipes (spawn inp g)
  /\ frame_clock g1 = frame_clock g
  /\ score g1 = score g.
Proof.
  intros g1. subst g1.
  destruct (handle_events_frame (events inp) (spawn inp g))
    as (Hpos & -> & -> & -> & _).
  destruct (spawn_frame inp g) as (Hb & -> & -> & _).
  rewrite Hb in Hpos. auto.
Qed.

Lemma main_tick_bird_x (inp : frame_input) (g : game) :
  Bird.x (bird (main_tick cos collide_mask inp g)) = Bird.x (bird g).
Proof.
  destruct (after_events_fields inp g) as ((Hx & _) & _).
  destruct (paused (handle_events (events inp) (spawn inp g))) eqn:Hp.
  - unfold main_tick. now rewrite Hp.
  - destruct (unpaused_tick_fields inp g Hp) as (-> & _).
    now rewrite bird_update_x.
Qed.

(** X10.  The bird never moves sideways: over any run of the loop, with any
    events, [bird.x] stays what it was. *)
Theorem bird_x_constant (inputs : list frame_input) (g : game) :
  Bird.x (bird (main_loop cos collide_mask inputs g)) = Bird.x (bird g).
Proof.
  revert g; induction inputs as [|inp inputs IH]; intros g; simpl;
    [reflexivity|].
  destruct (done g); [reflexivity|].
  rewrite IH. apply main_tick_bird_x.
Qed.

Lemma main_tick_frame_clock (inp : frame_input) (g : game) :
  frame_clock (main_tick cos collide_mask inp g)
  = (frame_clock g
     + if paused (handle_events (events inp) (spawn inp g)) then 0 else 1)%Z.
Proof.
  destruct (after_events_fields inp g) as (_ & _ & Hf & _).
  destruct (paused (handle_events (events inp) (spawn inp g))) eqn:Hp.
  - unfold main_tick. rewrite Hp. lia.
  - destruct (unpaused_tick_fields inp g Hp) as (_ & _ & _ & ->). lia.
Qed.

(** X11.  The frame counter counts the iterations that were not paused: an
    iteration adds one to it unless it ends at the pause test, so over a run
    it never goes down and grows by at most the number of iterations. *)
Theorem frame_clock_counts_unpaused (inputs : list frame_input) (g : game) :
  (forall inp,
     frame_clock (main_tick cos collide_mask inp g)
     = (frame_clock g
        + if paused (handle_events (events inp) (spawn inp g))
          then 0 else 1)%Z)
  /\ (frame_clock g <= frame_clock (main_loop cos collide_mask inputs g)
      <= frame_clock g + Z.of_nat (length inputs))%Z.
Proof.
  split; [intros inp; apply main_tick_frame_clock|].
  revert g; induction inputs as [|inp inputs IH]; intros g; simpl length;
    simpl main_loop; [lia|].
  destruct (done g); [lia|].
  specialize (IH (main_tick cos collide_mask inp g)).
  rewrite main_tick_frame_clock in IH.
  destruct (paused _) in IH; lia.
Qed.

(** X12.  A paused game cannot be lost: as long as no pause key arrives the
    collision test never runs, and the loop ends exactly when a quit event
    arrives. *)
Theorem paused_game_ends_only_by_quit
    (inputs : list frame_input) (g : game) :
  paused g = true ->
  done g = false ->
  Forall no_pause_event inputs ->
  done (main_loop cos collide_mask inputs g) = quit_arrives inputs.
Proof.
  revert g; induction inputs as [|inp inputs IH]; intros g Hp Hd Hev; simpl.
  - exact Hd.
  - rewrite Hd. inversion Hev as [|? ? Hinp Hrest]; subst.
    destruct (paused_tick cos collide_mask inp g Hp Hinp) as [Htick Hp1].
    pose proof (handle_events_done_spec (events inp) g) as Hdone.
    rewrite Hd, orb_false_l, <- Htick in Hdone.
    destruct (existsb is_quit (events inp)); simpl.
    + now rewrite main_loop_done.
    + now apply IH.
Qed.

Lemma main_loop_app (inputs1 inputs2 : list frame_input) (g : game) :
  main_loop cos collide_mask (inputs1 ++ inputs2) g
  = main_loop cos collide_mask inputs2 (main_loop cos collide_mask inputs1 g).
Proof.
  revert g; induction inputs1 as [|inp inputs1 IH]; intros g; simpl;
    [reflexivity|].
  destruct (done g) eqn:Hd; [|apply IH].
  symmetry. now apply main_loop_done.
Qed.

(** X13.  The loop runs exactly while [done] is unset: if a run ends with
    [done] set, whatever inputs follow change nothing, not even one field;
    if it ends with [done] unset, the next input is given its iteration. *)
Theorem loop_runs_while_not_done
    (inputs : list frame_input) (inp : frame_input)
    (more : list frame_input) (g : game) :
  (done (main_loop cos collide_mask inputs g) = true ->
   main_loop cos collide_mask (inputs ++ inp :: more) g
   = main_loop cos collide_mask inputs g)
  /\ (done (main_loop cos collide_mask inputs g) = false ->
      main_loop cos collide_mask (inputs ++ [inp]) g
      = main_tick cos collide_mask inp (main_loop cos collide_mask inputs g)).
Proof.
  split; intros Hd; rewrite main_loop_app.
  - now apply main_loop_done.
  - simpl. now rewrite Hd.
Qed.

(** X14.  After every iteration that is not paused no pair is left waiting
    for its point: each pair whose right edge is left of the bird has
    [score_counted] set. *)
Theorem passed_pairs_counted_after_tick (inp : frame_input) (g : game) :
  paused (handle_events (events inp) (spawn inp g)) = false ->
  let g' := main_tick cos collide_mask inp g in
  Forall (fun p =>
            (PipePair.x p + float_of_int PipePair.WIDTH <? Bird.x (bird g'))%float
            = true ->
            PipePair.score_counted p = true)
         (pipes g').
Proof.
  intros Hp g'. subst g'. rewrite main_tick_bird_x.
  destruct (after_events_fields inp g) as ((Hx & _) & _).
  destruct (unpaused_tick_fields inp g Hp) as (_ & -> & _).
  rewrite Hx. apply Forall_forall. intros p Hin Hpassed.
  apply in_map_iff in Hin as (q & <- & _).
  pose proof (scored_step_settled (Bird.x (bird g)) q) as Hs.
  unfold passed_uncounted in Hs. rewrite Hpassed in Hs. simpl in Hs.
  now apply negb_false_iff in Hs.
Qed.

(** X15.  The stream's length is accounted for in every iteration: the
    pairs at the end are those at the start, plus one when the game is not
    paused and the frame counter is a multiple of 180 (3000 ms at 60 frames
    a second), minus the pairs popped. *)
Theorem stream_length_accounting (inp : frame_input) (g : game) :
  (length (pipes (main_tick cos collide_mask inp g)) + popped_in_tick inp g
   = length (pipes g) + if spawn_due g then 1 else 0)%nat.
Proof.
  destruct (after_events_fields inp g) as (_ & Hps & _).
  unfold popped_in_tick.
  assert (Hlen : length (pipes (spawn inp g))
                 = (length (pipes g) + if spawn_due g then 1 else 0)%nat).
  { rewrite spawn_due_spec, length_app. now destruct (spawn_due g). }
  destruct (paused (handle_events (events inp) (spawn inp g))) eqn:Hp.
  - unfold main_tick. rewrite Hp, Hps. lia.
  - destruct (unpaused_tick_fields inp g Hp) as (_ & -> & _).
    rewrite !length_map, Hps. unfold popped.
    pose proof (prune_length (pipes (spawn inp g))). lia.
Qed.

(** X16.  A pair created in an iteration is still there at the end of it,
    last in the stream: at its initial x = 567 if the iteration ends at the
    pause test, moved by one frame to x = 564 otherwise. *)
Theorem spawned_pair_ends_tick_last (inp : frame_input) (g : game) :
  spawn_due g = true ->
  exists kept p,
    pipes (main_tick cos collide_mask inp g) = kept ++ [p]
    /\ flag_kept (PipePair.init (randint inp)) p
    /\ PipePair.x p
       = if paused (handle_events (events inp) (spawn inp g))
         then 567%float else 564%float.
Proof.
  intros Hdue.
  destruct (after_events_fields inp g) as (_ & Hps & _).
  rewrite spawn_due_spec, Hdue in Hps.
  destruct (paused (handle_events (events inp) (spawn inp g))) eqn:Hp.
  - exists (pipes g), (PipePair.init (randint inp)).
    unfold main_tick. rewrite Hp. split; [exact Hps|].
    split; [apply flag_kept_refl | reflexivity].
  - destruct (unpaused_tick_fields inp g Hp) as (_ & -> & _).
    rewrite Hps, (prune_keeps_visible_tail _ _ (init_visible _)), !map_app.
    eexists _, _. split; [reflexivity|]. split.
    + unfold flag_kept, scored_step.
      destruct (passed_uncounted _ _); simpl; auto.
    + unfold scored_step. destruct (passed_uncounted _ _); reflexivity.
Qed.

Lemma counted_spawn (inp : frame_input) (g : game) :
  counted (pipes (spawn inp g)) = counted (pipes g).
Proof.
  rewrite spawn_due_spec, counted_app.
  destruct (spawn_due g); unfold counted; simpl; lia.
Qed.

(** X17.  The score is accounted for in every iteration: the score less the
    counted pairs in the stream grows by exactly the counted pairs the
    iteration pops.  A point is never given without a flag set, never taken
    with a flag cleared. *)
Theorem score_accounting (inp : frame_input) (g : game) :
  let g' := main_tick cos collide_mask inp g in
  (score g' - counted (pipes g')
   = score g - counted (pipes g) + popped_counted inp g)%Z.
Proof.
  intros g'. subst g'. unfold popped_counted, popped_in_tick.
  destruct (after_events_fields inp g) as (_ & Hps & _ & Hsc).
  pose proof (counted_spawn inp g) as Hspawn.
  destruct (paused (handle_events (events inp) (spawn inp g))) eqn:Hp.
  - unfold main_tick. rewrite Hp, Hps, Hsc, Hspawn.
    unfold counted at 3. simpl. lia.
  - destruct (unpaused_tick_fields inp g Hp) as (_ & -> & -> & _).
    rewrite counted_scored, counted_moved, Hsc, Hps.
    rewrite (prune_split (pipes (spawn inp g))) in Hspawn at 1.
    rewrite counted_app in Hspawn. lia.
Qed.

Lemma main_tick_counted_le (inp : frame_input) (g : game) :
  (counted (pipes g) <= score g)%Z ->
  (counted (pipes (main_tick cos collide_mask inp g))
   <= score (main_tick cos collide_mask inp g))%Z.
Proof.
  intros H.
  destruct (after_events_fields inp g) as (_ & Hps & _ & Hsc).
  pose proof (counted_spawn inp g) as Hspawn.
  destruct (paused (handle_events (events inp) (spawn inp g))) eqn:Hp.
  - unfold main_tick. rewrite Hp, Hps, Hsc, Hspawn. exact H.
  - destruct (unpaused_tick_fields inp g Hp) as (_ & -> & -> & _).
    rewrite counted_scored, counted_moved, Hsc, Hps.
    rewrite (prune_split (pipes (spawn inp g))) in Hspawn at 1.
    rewrite counted_app in Hspawn.
    pose proof (counted_nonneg
                  (firstn (popped (pipes (spawn inp g)))
                          (pipes (spawn inp g)))). lia.
Qed.

(** X18.  The score covers the flags: if it is at least the number of
    counted pairs in the stream, as at the start of a game, it stays so over
    any run of the loop. *)
Theorem score_covers_counted_pairs (inputs : list frame_input) (g : game) :
  (counted (pipes g) <= score g)%Z ->
  (counted (pipes (main_loop cos collide_mask inputs g))
   <= score (main_loop cos collide_mask inputs g))%Z.
Proof.
  revert g; induction inputs as [|inp inputs IH]; intros g H; simpl;
    [exact H|].
  destruct (done g); [exact H|].
  apply IH. now apply main_tick_counted_le.
Qed.

Lemma counted_le_length (ps : list PipePair.t) :
  (counted ps <= Z.of_nat (length ps))%Z.
Proof.
  unfold counted. pose proof (filter_length_le PipePair.score_counted ps). lia.
Qed.

Lemma main_tick_potential (inp : frame_input) (g : game) :
  (score (main_tick cos collide_mask inp g)
   + uncounted (pipes (main_tick cos collide_mask inp g))
   <= score g + uncounted (pipes g) + if spawn_due g then 1 else 0)%Z.
Proof.
  unfold uncounted.
  destruct (after_events_fields inp g) as (_ & Hps & _ & Hsc).
  pose proof (counted_spawn inp g) as Hspawn.
  assert (Hlen : Z.of_nat (length (pipes (spawn inp g)))
                 = (Z.of_nat (length (pipes g))
                    + if spawn_due g then 1 else 0)%Z).
  { rewrite spawn_due_spec, length_app.
    destruct (spawn_due g); simpl length; lia. }
  destruct (paused (handle_events (events inp) (spawn inp g))) eqn:Hp.
  - unfold main_tick. rewrite Hp, Hps, Hsc, Hspawn. lia.
  - destruct (unpaused_tick_fields inp g Hp) as (_ & -> & -> & _).
    rewrite counted_scored, counted_moved, !length_map, Hsc, Hps.
    pose proof (prune_split (pipes (spawn inp g))) as Hsplit.
    pose proof (counted_le_length
                  (firstn (popped (pipes (spawn inp g)))
                          (pipes (spawn inp g)))) as Hpop.
    rewrite Hsplit in Hspawn at 1. rewrite counted_app in Hspawn.
    rewrite Hsplit in Hlen at 1. rewrite length_app in Hlen.
    lia.
Qed.

(** X20.  Points come from pairs: over any run of the loop the score plus
    the pairs still to be counted grows by no more than the pairs the run
    creates, so a game started from scratch never scores more points than
    it has created pairs. *)
Theorem score_bounded_by_pairs_created
    (inputs : list frame_input) (g : game) :
  (score (main_loop cos collide_mask inputs g)
   + uncounted (pipes (main_loop cos collide_mask inputs g))
   <= score g + uncounted (pipes g)
      + created_in_run cos collide_mask inputs g)%Z
  /\ (main cos collide_mask inputs
      <= created_in_run cos collide_mask inputs start)%Z.
Proof.
  assert (H : forall g,
    (score (main_loop cos collide_mask inputs g)
     + uncounted (pipes (main_loop cos collide_mask inputs g))
     <= score g + uncounted (pipes g)
        + created_in_run cos collide_mask inputs g)%Z).
  { clear g. induction inputs as [|inp inputs' IH]; intros g; simpl; [lia|].
    destruct (done g); [lia|].
    pose proof (IH (main_tick cos collide_mask inp g)).
    pose proof (main_tick_potential inp g). lia. }
  split; [apply H|].
  specialize (H start). unfold main.
  pose proof (counted_le_length
                (pipes (main_loop cos collide_mask inputs start))).
  unfold uncounted in H. change (score start) with 0%Z in H.
  change (pipes start) with (@nil PipePair.t) in H.
  change (counted []) with 0%Z in H. simpl length in H. lia.
Qed.

(** X21.  What ends a game.  An iteration of a running game that is not
    paused ends with [done] set exactly when a quit event arrived, or the
    mask of some pair of the stream (the pair just created included)
    overlaps the bird's, or the bird, where the iteration found it, has
    [y <= 0] or [y >= WIN_HEIGHT - Bird.HEIGHT]. *)
Theorem game_over_conditions (inp : frame_input) (g : game) :
  done g = false ->
  paused (handle_events (events inp) (spawn inp g)) = false ->
  (done (main_tick cos collide_mask inp g) = true
   <-> (exists e, In e (events inp) /\ is_quit e = true)
       \/ (exists p, In p (pipes (spawn inp g))
                     /\ collide_mask (Bird.wingup (get_ticks inp)) p
                          (bird (handle_events (events inp) (spawn inp g)))
                        = true)
       \/ (Bird.y (bird g) <=? 0)%float = true
       \/ (480 <=? Bird.y (bird g))%float = true).
Proof.
  intros Hd Hp.
  destruct (after_events_fields inp g) as ((_ & Hy) & Hps & _).
  set (g1 := handle_events (events inp) (spawn inp g)) in *.
  assert (Hdone : done (main_tick cos collide_mask inp g)
                  = done g1 || collision collide_mask (get_ticks inp)
                                 (pipes g1) (bird g1)).
  { unfold main_tick. fold g1. rewrite Hp.
    destruct (advance_fields cos
                (check_collisions collide_mask (get_ticks inp) g1))
      as (_ & _ & _ & _ & -> & _).
    apply check_collisions_frame. }
  rewrite Hdone. unfold g1 at 1.
  rewrite handle_events_done_spec.
  destruct (spawn_frame inp g) as (_ & _ & _ & -> & _).
  rewrite Hd, orb_false_l. unfold collision, collides_with, out_of_bounds.
  rewrite Hps, Hy, !orb_true_iff, !existsb_exists.
  change (float_of_int 0) with 0%float.
  change (float_of_int (WIN_HEIGHT - Bird.HEIGHT)) with 480%float.
  tauto.
Qed.

(** X22.  A climb event takes effect in the iteration it arrives in: if the
    iteration is not paused and no quit came with it, the bird leaves the
    iteration with its timer at [CLIMB_DURATION] less one frame and its [y]
    moved by the first step of the climb, [CLIMB_SPEED * msec * (1 - cos 0)],
    wherever it was in a climb or a fall before. *)
Theorem climb_event_starts_climb (inp : frame_input) (g : game) :
  quit_free (events inp) ->
  existsb is_climb (events inp) = true ->
  paused (handle_events (events inp) (spawn inp g)) = false ->
  bird (main_tick cos collide_mask inp g)
  = Bird.mk (Bird.x (bird g))
      (Bird.y (bird g)
       - Bird.CLIMB_SPEED * frames_to_msec 1 * (1 - cos 0))%float
      (Bird.CLIMB_DURATION - frames_to_msec 1)%float.
Proof.
  intros Hq Hc Hp.
  destruct (after_events_fields inp g) as ((Hx & Hy) & _).
  destruct (unpaused_tick_fields inp g Hp) as (-> & _).
  pose proof (climb_timer_after_events (events inp) (spawn inp g) Hq) as Ht.
  rewrite Hc in Ht.
  destruct (bird (handle_events (events inp) (spawn inp g)))
    as [bx by_ bt]. cbn [Bird.x Bird.y Bird.msec_to_climb] in *. subst.
  reflexivity.
Qed.

End Iterations.

(** ** The wing *)

(** X19.  The bird's picture and mask alternate on a period of 500 ms of
    [get_ticks]: wing down in the first 250 ms of each period, wing up in
    the last 250. *)
Theorem wingup_period (ticks k : Z) :
  Bird.wingup (ticks + 500 * k) = Bird.wingup ticks
  /\ ((0 <= ticks mod 500 < 250)%Z -> Bird.wingup ticks = false)
  /\ ((250 <= ticks mod 500 < 500)%Z -> Bird.wingup ticks = true).
Proof.
  unfold Bird.wingup. split; [|split].
  - replace (ticks + 500 * k)%Z with (ticks + k * 500)%Z by lia.
    now rewrite Z.mod_add.
  - intros H. apply Z.leb_gt. lia.
  - intros H. apply Z.leb_le. lia.
Qed.

(** ** Runs of the further properties *)

Lemma paused_game_ends_only_by_quit_witness :
  paused paused_game = true
  /\ done paused_game = false
  /\ Forall no_pause_event [climb_input; quit_input; idle_input]
  /\ done (main_loop cos_series no_overlap
             [climb_input; quit_input; idle_input] paused_game) = true.
Proof.
  split; [reflexivity|]. split; [reflexivity|]. split; [repeat constructor|].
  apply (paused_game_ends_only_by_quit cos_series no_overlap
           [climb_input; quit_input; idle_input] paused_game);
    [reflexivity | reflexivity | repeat constructor].
Defined.

Lemma passed_pairs_counted_after_tick_witness :
  paused (handle_events (events idle_input) (spawn idle_input about_to_score))
    = false
  /\ Forall (fun p =>
               (PipePair.x p + float_of_int PipePair.WIDTH
                <? Bird.x (bird (main_tick cos_series no_overlap idle_input
                                   about_to_score)))%float = true ->
               PipePair.score_counted p = true)
            (pipes (main_tick cos_series no_overlap idle_input about_to_score)).
Proof.
  split; [reflexivity|].
  apply (passed_pairs_counted_after_tick cos_series no_overlap
           idle_input about_to_score). reflexivity.
Defined.

Lemma spawned_pair_ends_tick_last_witness :
  spawn_due start = true
  /\ exists kept p,
       pipes (main_tick cos_series no_overlap idle_input start) = kept ++ [p]
       /\ flag_kept (PipePair.init (randint idle_input)) p
       /\ PipePair.x p
          = if paused (handle_events (events idle_input)
                         (spawn idle_input start))
            then 567%float else 564%float.
Proof.
  split; [reflexivity|].
  apply (spawned_pair_ends_tick_last cos_series no_overlap idle_input start).
  reflexivity.
Defined.

Lemma score_covers_counted_pairs_witness :
  (counted (pipes about_to_score) <= score about_to_score)%Z
  /\ (counted (pipes (main_loop cos_series no_overlap
                        [idle_input; idle_input] about_to_score))
      <= score (main_loop cos_series no_overlap
                  [idle_input; idle_input] about_to_score))%Z.
Proof.
  split; [vm_compute; discriminate|].
  apply (score_covers_counted_pairs cos_series no_overlap
           [idle_input; idle_input] about_to_score).
  vm_compute; discriminate.
Defined.

Lemma game_over_conditions_witness :
  done sinking_low = false
  /\ paused (handle_events (events idle_input) (spawn idle_input sinking_low))
     = false
  /\ (done (main_tick cos_series no_overlap idle_input sinking_low) = true
      <-> (exists e, In e (events idle_input) /\ is_quit e = true)
          \/ (exists p, In p (pipes (spawn idle_input sinking_low))
                /\ no_overlap (Bird.wingup (get_ticks idle_input)) p
                     (bird (handle_events (events idle_input)
                              (spawn idle_input sinking_low))) = true)
          \/ (Bird.y (bird sinking_low) <=? 0)%float = true
          \/ (480 <=? Bird.y (bird sinking_low))%float = true).
Proof.
  split; [reflexivity|]. split; [reflexivity|].
  apply (game_over_conditions cos_series no_overlap idle_input sinking_low);
    reflexivity.
Defined.

Lemma climb_event_starts_climb_witness :
  quit_free (events climb_input)
  /\ existsb is_climb (events climb_input) = true
  /\ paused (handle_events (events climb_input)
               (spawn climb_input sinking_low)) = false
  /\ bird (main_tick cos_series no_overlap climb_input sinking_low)
     = Bird.mk 50 478 316.63333333333333%float.
Proof.
  split; [reflexivity|]. split; [reflexivity|]. split; [reflexivity|].
  rewrite (climb_event_starts_climb cos_series no_overlap
             climb_input sinking_low); reflexivity.
Defined.

Lemma loop_runs_while_not_done_witness :
  done (main_loop cos_series no_overlap [quit_input] start) = true
  /\ main_loop cos_series no_overlap
       ([quit_input] ++ climb_input :: [idle_input]) start
     = main_loop cos_series no_overlap [quit_input] start.
Proof.
  split; [vm_compute; reflexivity|].
  apply (loop_runs_while_not_done cos_series no_overlap
           [quit_input] climb_input [idle_input] start).
  vm_compute; reflexivity.
Defined.
